(** * ordermutex: a ticket lock with precise wake-ups and ticket cancellation

    Shallow embedding of [pkg/ordermutex/ordermutex.go] and
    [pkg/ordermutex/ticker.go].

    - [uint64] values are integers in [Z]; every arithmetic operation of the
      source on them is followed by an explicit reduction modulo [2^64].
    - [map[uint64]chan struct{}] is a [gmap Z chan], [map[uint64]struct{}] is a
      [gset Z].
    - A channel is identified by its allocation index.  The only channel
      operations of the source are [make], [close] and a blocking receive;
      [close] is recorded as an event in the list returned next to the new
      state (the source deletes a channel from [waiters] when it closes it,
      so no channel is closed twice, see [advance_closes_open]), and the
      receive is a separate step of the interleaving model ([step] below)
      that is enabled once the channel is closed.
    - Every method body runs under [m.mu], so each method (and, for [Lock],
      each of its two halves) is one atomic transition of the state. *)

From stdpp Require Import gmap list strings sorting.

#[local] Set Warnings "-clear-no-such-hyp".

Local Open Scope Z_scope.

(** ** Machine integers *)

Definition uint64_modulus : Z := 2 ^ 64.
Definition uint64_max : Z := uint64_modulus - 1.

(** The value a [uint64] expression holds after the operation wrapped. *)
Definition wrap64 (z : Z) : Z := z mod uint64_modulus.

(** [c++] on a [uint64]. *)
Definition incr64 (c : Z) : Z := wrap64 (c + 1).

(** ** Tickets ([ticker.go]) *)

Definition ticket : Type := Z.

Definition ID (t : ticket) : Z := t.

(** ** The mutex state ([orderMutex]) *)

Definition chan : Type := nat.

Record orderMutex : Type := mkOrderMutex {
  next : Z;
  cur : Z;
  waiters : gmap Z chan;
  burned : gset Z
}.

Definition set_next (m : orderMutex) (n : Z) : orderMutex :=
  mkOrderMutex n (cur m) (waiters m) (burned m).
Definition set_cur (m : orderMutex) (c : Z) : orderMutex :=
  mkOrderMutex (next m) c (waiters m) (burned m).
Definition set_waiters (m : orderMutex) (w : gmap Z chan) : orderMutex :=
  mkOrderMutex (next m) (cur m) w (burned m).
Definition set_burned (m : orderMutex) (b : gset Z) : orderMutex :=
  mkOrderMutex (next m) (cur m) (waiters m) b.

(** [New]: both maps empty, both counters at their zero value. *)
Definition New : orderMutex := mkOrderMutex 0 0 ∅ ∅.

(** [GetTicket]: [id := m.next.Add(1) - 1]. *)
Definition GetTicket (m : orderMutex) : orderMutex * ticket :=
  let n' := wrap64 (next m + 1) in
  (set_next m n', wrap64 (n' - 1)).

(** [Lock], first half (under [m.mu]): either the fast path returns, or the
    caller is parked on the channel registered for its ticket.  [fresh] is
    the channel [make] would return. *)
Inductive lock_outcome : Type :=
| Entered
| Parked (ch : chan).

Definition Lock_enter (fresh : chan) (m : orderMutex) (t : ticket)
  : orderMutex * lock_outcome :=
  let id := ID t in
  if decide (id = cur m) then (m, Entered)
  else match waiters m !! id with
       | Some ch => (m, Parked ch)
       | None => (set_waiters m (<[id := fresh]> (waiters m)), Parked fresh)
       end.

(** The [for] loop of [advanceAndWakeNext].  Every iteration deletes one key
    of [burned], so [size burned] iterations are all the loop can make; the
    fuel is that bound (see [skip_burned_fuel] and [skip_burned_stops]). *)
Fixpoint skip_burned_loop (fuel : nat) (c : Z) (b : gset Z) : Z * gset Z :=
  if decide (c ∈ b) then
    match fuel with
    | O => (c, b)
    | S n => skip_burned_loop n (incr64 c) (b ∖ {[c]})
    end
  else (c, b).

Definition skip_burned (c : Z) (b : gset Z) : Z * gset Z :=
  skip_burned_loop (size b) c b.

(** [advanceAndWakeNext]; the list holds the channels closed by the call. *)
Definition advanceAndWakeNext (m : orderMutex) : orderMutex * list chan :=
  let '(c, b) := skip_burned (cur m) (burned m) in
  let m1 := set_burned (set_cur m c) b in
  match waiters m1 !! cur m1 with
  | Some ch => (set_waiters m1 (delete (cur m1) (waiters m1)), [ch])
  | None => (m1, [])
  end.

(** [Unlock]: a goroutine panic is the [Panic] outcome; the deferred
    [m.mu.Unlock()] runs and the state is as it was. *)
Inductive outcome (A : Type) : Type :=
| Done (a : A)
| Panic (msg : string).
Arguments Done {A} a.
Arguments Panic {A} msg.

Definition Unlock (m : orderMutex) (t : ticket)
  : outcome (orderMutex * list chan) :=
  let id := ID t in
  if decide (id ≠ cur m) then
    Panic "Unlock called for a ticket that does not hold the lock"
  else Done (advanceAndWakeNext (set_cur m (incr64 (cur m)))).

(** [ReturnTicket]. *)
Definition ReturnTicket (m : orderMutex) (t : ticket)
  : orderMutex * list chan :=
  let id := ID t in
  if decide (id < cur m) then (m, [])
  else
    let m1 := set_burned m ({[id]} ∪ burned m) in
    let m2 := match waiters m1 !! id with
              | Some ch => set_waiters m1 (delete id (waiters m1))
              | None => m1
              end in
    advanceAndWakeNext m2.

(** ** Positions stepped over by the skip loop *)

(** The [k] consecutive positions starting at [c], in [uint64] arithmetic. *)
Fixpoint run (c : Z) (k : nat) : list Z :=
  match k with
  | O => []
  | S k' => c :: run (incr64 c) k'
  end.

(** The position [k] increments after [c]. *)
Definition run_end (c : Z) (k : nat) : Z := Nat.iter k incr64 c.

(** ** States reachable by any sequence of calls

    No usage contract is assumed here: any method may be called with any
    ticket, and [Lock] may be handed any channel.  Only a panicking [Unlock]
    produces no state. *)
Inductive reachable : orderMutex → Prop :=
| reach_New : reachable New
| reach_GetTicket m : reachable m → reachable (GetTicket m).1
| reach_Lock m fresh t : reachable m → reachable (Lock_enter fresh m t).1
| reach_Unlock m t r : reachable m → Unlock m t = Done r → reachable r.1
| reach_ReturnTicket m t : reachable m → reachable (ReturnTicket m t).1.

(** The frontier has room to advance over every burned ticket without
    leaving the 64-bit position space. *)
Definition no_wrap (m : orderMutex) : Prop :=
  0 ≤ cur m ∧ cur m + Z.of_nat (size (burned m)) + 1 < uint64_modulus.

(** [n] successive calls of [GetTicket]; the tickets in call order. *)
Fixpoint GetTickets (n : nat) (m : orderMutex) : orderMutex * list ticket :=
  match n with
  | O => (m, [])
  | S n' => let '(m1, t) := GetTicket m in
            let '(m2, ts) := GetTickets n' m1 in
            (m2, t :: ts)
  end.

(** ** Callers that follow the usage contract

    The interleaving model.  Every ticket handed out has an owner, and
    [phases] records where that owner stands:
    - [Issued]: the ticket was returned by [GetTicket], nothing else yet;
    - [Waiting ch]: the owner is inside [Lock], blocked in [<-ch];
    - [Holding]: [Lock] has returned and [Unlock] has not been called;
    - [Released]: [Unlock] has returned;
    - [Cancelled]: [ReturnTicket] was called before [Lock].
    The usage contract of the source (the comment on [ReturnTicket], the
    "UB" remark in [Unlock]) is the set of moves an owner may make:
    [Lock] once, from [Issued]; [Unlock] once, from [Holding];
    [ReturnTicket] from [Issued] or [Cancelled] (cancel), or from [Released]
    (the deferred call after [Unlock]); never [Lock] after a cancel, never
    [ReturnTicket] between [Lock] and [Unlock]; and no more tickets than the
    counter can number.  The machine state is the [orderMutex] together with
    the channels: [nchan] channels have been made so far, [closed] is the
    set of those closed.  [lock_log] logs the tickets in the order in which
    their [Lock] calls returned. *)

Inductive phase : Type :=
| Issued
| Waiting (ch : chan)
| Holding
| Released
| Cancelled.

#[global] Instance phase_eq_dec : EqDecision phase.
Proof. solve_decision. Defined.

Record sys : Type := mkSys {
  mtx : orderMutex;
  nchan : nat;
  closed : gset chan;
  phases : gmap Z phase;
  lock_log : list Z
}.

Definition sys_init : sys := mkSys New 0 ∅ ∅ [].

(** One atomic move of one caller.  [AWake t] is the receive [<-ch] of the
    caller parked for [t] completing, which makes its [Lock] return. *)
Inductive action : Type :=
| AGetTicket
| ALock (t : ticket)
| AWake (t : ticket)
| AUnlock (t : ticket)
| AReturnTicket (t : ticket).

(** [step a s] is the state after the move, or [None] when the move is not
    one the contract allows in [s], when the receive is still blocked, or
    when the call panics. *)
Definition step (a : action) (s : sys) : option sys :=
  match a with
  | AGetTicket =>
      if decide (next (mtx s) < uint64_max) then
        let '(m', t) := GetTicket (mtx s) in
        Some (mkSys m' (nchan s) (closed s)
                    (<[ID t := Issued]> (phases s)) (lock_log s))
      else None
  | ALock t =>
      match phases s !! ID t with
      | Some Issued =>
          match Lock_enter (nchan s) (mtx s) t with
          | (m', Entered) =>
              Some (mkSys m' (nchan s) (closed s)
                          (<[ID t := Holding]> (phases s))
                          (lock_log s ++ [ID t]))
          | (m', Parked ch) =>
              Some (mkSys m' (S (nchan s)) (closed s)
                          (<[ID t := Waiting ch]> (phases s)) (lock_log s))
          end
      | _ => None
      end
  | AWake t =>
      match phases s !! ID t with
      | Some (Waiting ch) =>
          if decide (ch ∈ closed s) then
            Some (mkSys (mtx s) (nchan s) (closed s)
                        (<[ID t := Holding]> (phases s))
                        (lock_log s ++ [ID t]))
          else None
      | _ => None
      end
  | AUnlock t =>
      match phases s !! ID t with
      | Some Holding =>
          match Unlock (mtx s) t with
          | Done (m', fired) =>
              Some (mkSys m' (nchan s) (closed s ∪ list_to_set fired)
                          (<[ID t := Released]> (phases s)) (lock_log s))
          | Panic _ => None
          end
      | _ => None
      end
  | AReturnTicket t =>
      match phases s !! ID t with
      | Some Issued | Some Cancelled =>
          let '(m', fired) := ReturnTicket (mtx s) t in
          Some (mkSys m' (nchan s) (closed s ∪ list_to_set fired)
                      (<[ID t := Cancelled]> (phases s)) (lock_log s))
      | Some Released =>
          let '(m', fired) := ReturnTicket (mtx s) t in
          Some (mkSys m' (nchan s) (closed s ∪ list_to_set fired)
                      (phases s) (lock_log s))
      | _ => None
      end
  end.

Fixpoint run_actions (tr : list action) (s : sys) : option sys :=
  match tr with
  | [] => Some s
  | a :: tr' => match step a s with
                | Some s' => run_actions tr' s'
                | None => None
                end
  end.

(** The states of executions that follow the contract. *)
Definition contract_reachable (s : sys) : Prop :=
  ∃ tr, run_actions tr sys_init = Some s.

(** Every owner has made its last move: each ticket is either cancelled or
    let in and released. *)
Definition complete (s : sys) : Prop :=
  map_Forall (λ _ f, f = Released ∨ f = Cancelled) (phases s).

(** [Lock] has returned for the ticket. *)
Definition entered (ph : gmap Z phase) (p : Z) : Prop :=
  ph !! p = Some Holding ∨ ph !! p = Some Released.

#[global] Instance entered_dec ph p : Decision (entered ph p).
Proof. unfold entered. apply _. Defined.

(** What each phase says about the mutex state.  These hold between the
    first statement of a method and its call of [advanceAndWakeNext] as
    well; at method boundaries [frontier_ok] below holds in addition. *)
Definition phase_ok (m : orderMutex) (nch : nat) (cl : gset chan)
    (p : Z) (f : phase) : Prop :=
  match f with
  | Issued => cur m ≤ p ∧ waiters m !! p = None ∧ (p ∉ burned m)
  | Waiting ch =>
      (ch < nch)%nat ∧ (p ∉ burned m) ∧
      ((p = cur m ∧ (ch ∈ cl) ∧ waiters m !! p = None) ∨
       (cur m ≤ p ∧ (ch ∉ cl) ∧ waiters m !! p = Some ch))
  | Holding => p = cur m ∧ waiters m !! p = None ∧ (p ∉ burned m)
  | Released => p < cur m
  | Cancelled =>
      p < cur m ∨ (cur m ≤ p ∧ (p ∈ burned m) ∧ waiters m !! p = None)
  end.

Record mid_inv (m : orderMutex) (nch : nat) (cl : gset chan)
    (ph : gmap Z phase) : Prop := mkMidInv {
  mi_range : 0 ≤ cur m ≤ next m ∧ next m ≤ uint64_max;
  mi_dom : ∀ p, is_Some (ph !! p) ↔ 0 ≤ p < next m;
  mi_phase : ∀ p f, ph !! p = Some f → phase_ok m nch cl p f;
  mi_waiters : ∀ p ch, waiters m !! p = Some ch → ph !! p = Some (Waiting ch);
  mi_burned : ∀ p, p ∈ burned m → ph !! p = Some Cancelled;
  mi_burned_ge : ∀ p, p ∈ burned m → cur m ≤ p;
  mi_chan_inj : ∀ p q ch,
      ph !! p = Some (Waiting ch) → ph !! q = Some (Waiting ch) → p = q;
  mi_closed : ∀ ch, ch ∈ cl → (ch < nch)%nat
}.

Definition frontier_ok (m : orderMutex) : Prop :=
  (cur m ∉ burned m) ∧ waiters m !! cur m = None.

Definition log_ok (s : sys) : Prop :=
  lock_log s = filter (entered (phases s)) (seqZ 0 (next (mtx s))).

Definition sys_inv (s : sys) : Prop :=
  mid_inv (mtx s) (nchan s) (closed s) (phases s) ∧
  frontier_ok (mtx s) ∧
  log_ok s.

(** The invariants the source documents on [orderMutex]. *)
Definition documented_inv (m : orderMutex) : Prop :=
  (next m >= cur m)%Z ∧
  (∀ p ch, waiters m !! p = Some ch → (p >= cur m)%Z) ∧
  (∀ p ch1 ch2, waiters m !! p = Some ch1 → waiters m !! p = Some ch2 → ch1 = ch2) ∧
  (∀ p, p ∈ burned m → ¬ p < cur m).

(** The result of a run from the initial state ([sys_init] itself if the
    run breaks the contract). *)
Definition exec (tr : list action) : sys :=
  default sys_init (run_actions tr sys_init).

(** Four tickets; 2 parks first, 1 is cancelled, 0 takes the fast path, 3
    parks; then everybody finishes, with the deferred [ReturnTicket]s. *)
Definition demo_prefix : list action :=
  [AGetTicket; AGetTicket; AGetTicket; AGetTicket;
   ALock 2; AReturnTicket 1; ALock 0; ALock 3].

Definition demo_trace : list action :=
  demo_prefix ++
  [AUnlock 0; AWake 2; AReturnTicket 0; AUnlock 2; AWake 3;
   AUnlock 3; AReturnTicket 3; AReturnTicket 2; AReturnTicket 1].

(** ** The ordering check of [TestRandomLocks]

    The test draws [burnedTickets] before it starts its goroutines.  A
    goroutine whose ticket is marked returns right after [GetTicket] (its
    deferred [ReturnTicket] cancels the ticket); any other goroutine calls
    [Lock] and, inside the critical section, runs the check below on the
    shared variable [desiredTicket]; the deferred [Unlock] and
    [ReturnTicket] follow. *)

(** [burnedTickets[d]]: a key that is not in the map reads as [false]. *)
Definition burnedTickets_at (bt : gmap Z bool) (d : Z) : bool :=
  default false (bt !! d).

(** [for burnedTickets[desiredTicket] { desiredTicket++ }]; [None] when the
    fuel runs out before the loop exits. *)
Fixpoint skip_desired (fuel : nat) (bt : gmap Z bool) (d : Z) : option Z :=
  if burnedTickets_at bt d then
    match fuel with
    | O => None
    | S n => skip_desired n bt (incr64 d)
    end
  else Some d.

(** The outcome of one check: the new [desiredTicket], or the branch that
    prints "FATAL: ordering was broken" and exits. *)
Inductive check_result : Type :=
| CheckPassed (desired : Z)
| CheckFatal
| CheckOutOfFuel.

Definition order_check (fuel : nat) (bt : gmap Z bool) (desired id : Z)
  : check_result :=
  match skip_desired fuel bt desired with
  | None => CheckOutOfFuel
  | Some d => if decide (id = d) then CheckPassed (incr64 d) else CheckFatal
  end.

(** The checks of the callers in [log], in the order in which they entered
    the critical section. *)
Fixpoint order_checks (fuel : nat) (bt : gmap Z bool) (desired : Z)
    (log : list Z) : check_result :=
  match log with
  | [] => CheckPassed desired
  | id :: rest =>
      match order_check fuel bt desired id with
      | CheckPassed d => order_checks fuel bt d rest
      | r => r
      end
  end.

(** The owner of ticket [p] follows the script of the test: a marked ticket
    is never locked, an unmarked one is never cancelled before [Lock]. *)
Definition script_ok (bt : gmap Z bool) (p : Z) (f : phase) : Prop :=
  match f with
  | Issued => True
  | Cancelled => burnedTickets_at bt p = true
  | Waiting _ | Holding | Released => burnedTickets_at bt p = false
  end.

#[global] Instance script_ok_dec bt p f : Decision (script_ok bt p f).
Proof. destruct f; simpl; apply _. Defined.

Definition follows_script (bt : gmap Z bool) (s : sys) : Prop :=
  map_Forall (script_ok bt) (phases s).

(** ** [BenchmarkOrderMutexSequential]

    One goroutine: [b.N] tickets are taken first, then each is locked and
    unlocked in turn, then each is returned. *)
Definition bench_sequential (N : nat) : list action :=
  replicate N AGetTicket ++
  (seqZ 0 (Z.of_nat N) ≫= λ i, [ALock i; AUnlock i]) ++
  (AReturnTicket <$> seqZ 0 (Z.of_nat N)).

(** The state of the benchmark when [N] tickets are out and the first [k]
    of them have been locked and unlocked. *)
Definition bench_state (N k : Z) (s : sys) : Prop :=
  mtx s = mkOrderMutex N k ∅ ∅ ∧ nchan s = 0%nat ∧ closed s = ∅ ∧
  lock_log s = seqZ 0 k ∧
  ∀ j, phases s !! j =
       if decide (0 ≤ j < k) then Some Released
       else if decide (k ≤ j < N) then Some Issued else None.

(** * Properties of the skip loop *)

Section skip_loop.

Lemma run_end_S c k : run_end c (S k) = run_end (incr64 c) k.
Proof. unfold run_end. by rewrite Nat.iter_succ_r. Qed.

Lemma run_length c k : length (run c k) = k.
Proof. revert c. induction k as [|k IH]; intros c; simpl; [done|]. by rewrite IH. Qed.

Lemma run_lookup c k (i : nat) :
  (i < k)%nat → run c k !! i = Some (run_end c i).
Proof.
  revert c i. induction k as [|k IH]; intros c i Hi; [lia|].
  destruct i as [|i]; [done|].
  rewrite run_end_S. apply IH. lia.
Qed.

Lemma size_remove (b : gset Z) c : c ∈ b → size b = S (size (b ∖ {[c]})).
Proof.
  intros Hc. rewrite size_difference by set_solver.
  rewrite size_singleton.
  assert (size b ≠ 0%nat) by (intros ?%size_empty_inv; set_solver).
  lia.
Qed.

(** What the loop has done when it exits, in every state: it stepped over
    a run of [k] positions starting at [c], each of which it found in the
    set and deleted, and stands on a position that is not in the set. *)
Lemma skip_burned_loop_spec fuel c b :
  (size b ≤ fuel)%nat →
  ∃ k : nat,
    (k ≤ size b)%nat ∧
    skip_burned_loop fuel c b = (run_end c k, b ∖ list_to_set (run c k)) ∧
    Forall (λ p, p ∈ b) (run c k) ∧
    NoDup (run c k) ∧
    run_end c k ∉ b ∖ list_to_set (run c k).
Proof.
  revert c b. induction fuel as [|n IH]; intros c b Hsz; simpl.
  - destruct (decide (c ∈ b)) as [Hc|Hc].
    + apply size_remove in Hc. lia.
    + exists 0%nat. simpl. split_and!; [lia| |constructor|constructor|set_solver].
      f_equal. set_solver.
  - destruct (decide (c ∈ b)) as [Hc|Hc].
    + pose proof (size_remove b c Hc) as Hs.
      destruct (IH (incr64 c) (b ∖ {[c]})) as (k & Hk & Heq & Hall & Hnd & Hend); [lia|].
      exists (S k). rewrite run_end_S. simpl.
      split_and!.
      * lia.
      * rewrite Heq. f_equal. set_solver.
      * constructor; [done|]. eapply Forall_impl; [exact Hall|]. set_solver.
      * constructor; [|done]. intros Hin.
        rewrite Forall_forall in Hall. specialize (Hall _ Hin). set_solver.
      * set_solver.
    + exists 0%nat. simpl. split_and!; [lia| |constructor|constructor|set_solver].
      f_equal. set_solver.
Qed.

(** The fuel [size b] is enough: more fuel gives the same exit state. *)
Lemma skip_burned_fuel fuel c b :
  (size b ≤ fuel)%nat → skip_burned_loop fuel c b = skip_burned c b.
Proof.
  unfold skip_burned. remember (size b) as n eqn:Hn.
  revert fuel c b Hn. induction n as [|n IH]; intros fuel c b Hn Hle.
  - symmetry in Hn. apply size_empty_inv in Hn. apply leibniz_equiv in Hn. subst b.
    destruct fuel; simpl; destruct (decide (c ∈ ∅)); set_solver.
  - destruct fuel as [|fuel]; [lia|]. simpl.
    destruct (decide (c ∈ b)) as [Hc|Hc]; [|done].
    apply IH; [|lia]. pose proof (size_remove b c Hc). lia.
Qed.

(** The loop exits on its [break]: the position it stands on is not burned. *)
Lemma skip_burned_stops c b : (skip_burned c b).1 ∉ (skip_burned c b).2.
Proof.
  destruct (skip_burned_loop_spec (size b) c b) as (k & _ & Heq & _ & _ & Hend); [done|].
  unfold skip_burned. rewrite Heq. done.
Qed.

(** Without wrap-around the run is the interval [[c, c + k)]. *)
Lemma skip_burned_no_wrap c b :
  0 ≤ c → c + Z.of_nat (size b) < uint64_modulus →
  ∃ k : nat,
    (k ≤ size b)%nat ∧
    skip_burned c b = (c + Z.of_nat k, filter (λ p, ¬ (c ≤ p < c + Z.of_nat k)) b) ∧
    (∀ p, c ≤ p < c + Z.of_nat k → p ∈ b) ∧
    c + Z.of_nat k ∉ b.
Proof.
  unfold skip_burned. remember (size b) as n eqn:Hn.
  revert c b Hn. induction n as [|n IH]; intros c b Hn H0 Hlt.
  - symmetry in Hn. apply size_empty_inv in Hn. apply leibniz_equiv in Hn. subst b.
    exists 0%nat. simpl. destruct (decide (c ∈ ∅)) as [Hc|Hc]; [set_solver|].
    split_and!; [lia| |intros; lia|set_solver].
    rewrite Z.add_0_r. f_equal.
  - simpl. destruct (decide (c ∈ b)) as [Hc|Hc].
    + pose proof (size_remove b c Hc) as Hs.
      assert (Hw : incr64 c = c + 1).
      { unfold incr64, wrap64. apply Z.mod_small. lia. }
      rewrite Hw.
      destruct (IH (c + 1) (b ∖ {[c]})) as (k & Hk & Heq & Hall & Hend); [lia|lia|lia|].
      exists (S k). split_and!.
      * lia.
      * rewrite Heq. f_equal; [lia|].
        apply set_eq. intros p. rewrite !elem_of_filter. set_solver by lia.
      * intros p Hp. destruct (decide (p = c)) as [->|Hne]; [done|].
        assert (p ∈ b ∖ {[c]}) by (apply Hall; lia). set_solver.
      * replace (c + Z.of_nat (S k)) with (c + 1 + Z.of_nat k) by lia.
        intros Hin. apply Hend. apply elem_of_difference. split; [done|].
        rewrite elem_of_singleton. lia.
    + exists 0%nat. split_and!; [lia| |intros; lia|by rewrite Z.add_0_r].
      rewrite Z.add_0_r. f_equal.
      apply set_eq. intros p. rewrite elem_of_filter. split; [|tauto].
      intros Hp. split; [lia|done].
Qed.

End skip_loop.

(** * The methods, one call at a time *)

Section calls.

Implicit Types (m : orderMutex) (t : ticket).

Lemma advanceAndWakeNext_unfold m :
  advanceAndWakeNext m =
    let c := (skip_burned (cur m) (burned m)).1 in
    let b := (skip_burned (cur m) (burned m)).2 in
    match waiters m !! c with
    | Some ch => (mkOrderMutex (next m) c (delete c (waiters m)) b, [ch])
    | None => (mkOrderMutex (next m) c (waiters m) b, [])
    end.
Proof.
  unfold advanceAndWakeNext. destruct (skip_burned (cur m) (burned m)) as [c b].
  simpl. by destruct (waiters m !! c).
Qed.

Lemma advanceAndWakeNext_next m : next (advanceAndWakeNext m).1 = next m.
Proof. rewrite advanceAndWakeNext_unfold. simpl. by destruct (waiters m !! _). Qed.

Lemma advanceAndWakeNext_cur m :
  cur (advanceAndWakeNext m).1 = (skip_burned (cur m) (burned m)).1.
Proof. rewrite advanceAndWakeNext_unfold. simpl. by destruct (waiters m !! _). Qed.

Lemma advanceAndWakeNext_burned m :
  burned (advanceAndWakeNext m).1 = (skip_burned (cur m) (burned m)).2.
Proof. rewrite advanceAndWakeNext_unfold. simpl. by destruct (waiters m !! _). Qed.

Lemma advanceAndWakeNext_waiters m :
  waiters (advanceAndWakeNext m).1 =
    delete (cur (advanceAndWakeNext m).1) (waiters m).
Proof.
  rewrite advanceAndWakeNext_cur, advanceAndWakeNext_unfold. simpl.
  destruct (waiters m !! _) eqn:E; simpl; [done|]. by rewrite delete_id.
Qed.

Lemma advanceAndWakeNext_fired m :
  (advanceAndWakeNext m).2 =
    match waiters m !! cur (advanceAndWakeNext m).1 with
    | Some ch => [ch]
    | None => []
    end.
Proof.
  rewrite advanceAndWakeNext_cur, advanceAndWakeNext_unfold. simpl.
  by destruct (waiters m !! _).
Qed.

(** After the call nobody waits at the frontier and the frontier is live. *)
Lemma advanceAndWakeNext_frontier m :
  (cur (advanceAndWakeNext m).1 ∉ burned (advanceAndWakeNext m).1) ∧
  waiters (advanceAndWakeNext m).1 !! cur (advanceAndWakeNext m).1 = None.
Proof.
  split.
  - rewrite advanceAndWakeNext_cur, advanceAndWakeNext_burned.
    apply skip_burned_stops.
  - rewrite advanceAndWakeNext_waiters. apply lookup_delete_eq.
Qed.

Lemma ReturnTicket_unfold m t :
  ReturnTicket m t =
    if decide (ID t < cur m) then (m, [])
    else advanceAndWakeNext
           (mkOrderMutex (next m) (cur m) (delete (ID t) (waiters m))
                         ({[ID t]} ∪ burned m)).
Proof.
  unfold ReturnTicket. destruct (decide (ID t < cur m)); [done|]. simpl.
  destruct (waiters m !! ID t) eqn:E; [done|].
  unfold set_burned. simpl. by rewrite delete_id.
Qed.

(** Invariants of every reachable state, whatever the callers do. *)
Lemma reachable_frontier m :
  reachable m → (cur m ∉ burned m) ∧ waiters m !! cur m = None.
Proof.
  induction 1 as [|m _ IH|m fresh t _ IH|m t r _ IH HU|m t _ IH].
  - split; [set_solver|done].
  - done.
  - unfold Lock_enter. destruct (decide (ID t = cur m)) as [|Hne]; [done|].
    destruct (waiters m !! ID t); [done|]. simpl.
    split; [apply IH|]. rewrite lookup_insert_ne; [apply IH|done].
  - unfold Unlock in HU. destruct (decide (ID t ≠ cur m)); [done|].
    injection HU as <-. apply advanceAndWakeNext_frontier.
  - rewrite ReturnTicket_unfold. destruct (decide (ID t < cur m)); [done|].
    apply advanceAndWakeNext_frontier.
Qed.

Lemma run_end_mod c (k : nat) :
  (0 < k)%nat → run_end c k = (c + Z.of_nat k) mod uint64_modulus.
Proof.
  induction k as [|k IH]; [lia|]. intros _.
  unfold run_end in *. simpl. destruct k as [|k].
  - done.
  - rewrite IH by lia. unfold incr64, wrap64.
    rewrite Zplus_mod_idemp_l. f_equal. lia.
Qed.

Lemma run_end_in_run c (k : nat) :
  run_end c k ∈ run c k → uint64_modulus ≤ Z.of_nat k.
Proof.
  intros (i & Hi)%list_elem_of_lookup.
  pose proof (lookup_lt_Some _ _ _ Hi) as Hlt. rewrite run_length in Hlt.
  rewrite run_lookup in Hi by done. injection Hi as Hi.
  assert (HM : 0 < uint64_modulus) by done.
  rewrite (run_end_mod c k) in Hi by lia.
  assert (Hd : (Z.of_nat k - Z.of_nat i) mod uint64_modulus = 0).
  { destruct i as [|i].
    - unfold run_end in Hi. simpl in Hi.
      assert (c mod uint64_modulus = c) as Hc.
      { rewrite Hi at 1. by rewrite Zmod_mod. }
      rewrite <- Hc in Hi at 1.
      rewrite Z.sub_0_r.
      replace (Z.of_nat k) with ((c + Z.of_nat k) - c) by lia.
      rewrite Zminus_mod, <- Hi, Z.sub_diag. done.
    - rewrite run_end_mod in Hi by lia.
      replace (Z.of_nat k - Z.of_nat (S i))
        with ((c + Z.of_nat k) - (c + Z.of_nat (S i))) by lia.
      rewrite Zminus_mod, <- Hi, Z.sub_diag. done. }
  apply Z.mod_divide in Hd; [|lia].
  apply Z.divide_pos_le in Hd; lia.
Qed.

End calls.

Lemma size_burn (b : gset Z) (p : Z) : (size ({[p]} ∪ b) ≤ S (size b))%nat.
Proof.
  rewrite size_union_alt, size_singleton.
  assert (b ∖ {[p]} ⊆ b) as Hsub%subseteq_size by set_solver.
  lia.
Qed.

Lemma skip_burned_mono (c : Z) (b : gset Z) :
  0 ≤ c → c + Z.of_nat (size b) < uint64_modulus →
  c ≤ (skip_burned c b).1 ≤ c + Z.of_nat (size b).
Proof.
  intros H0 Hlt.
  destruct (skip_burned_no_wrap c b H0 Hlt) as (k & Hk & -> & _). simpl. lia.
Qed.

(** A ticket behind the frontier: [ReturnTicket] returns at once. *)
Lemma ReturnTicket_behind (m : orderMutex) (t : ticket) :
  ID t < cur m → ReturnTicket m t = (m, []).
Proof. intros Hlt. unfold ReturnTicket. by destruct (decide (ID t < cur m)). Qed.

(** The ticket at the frontier: [ReturnTicket] moves [cur] past it. *)
Lemma ReturnTicket_at_cur (m : orderMutex) (t : ticket) :
  ID t = cur m → no_wrap m → ID t < cur (ReturnTicket m t).1.
Proof.
  intros Heq [H0 Hlt]. rewrite ReturnTicket_unfold.
  destruct (decide (ID t < cur m)); [lia|].
  rewrite advanceAndWakeNext_cur. simpl. rewrite <- Heq.
  pose proof (size_burn (burned m) (ID t)) as Hsz.
  destruct (skip_burned_no_wrap (ID t) ({[ID t]} ∪ burned m)) as (k & _ & Hk & _ & Hend).
  { lia. } { lia. }
  rewrite Hk. simpl.
  destruct k as [|k]; [|lia]. rewrite Z.add_0_r in Hend. set_solver.
Qed.

(** * Claims about single calls *)

(** C2. In every state, one call of [advanceAndWakeNext] steps over exactly
    the contiguous run of burned positions that starts at [cur]: there is a
    number [k] of iterations such that each of the [k] consecutive positions
    from [cur] was in [burned] and is deleted from it, [cur] is incremented
    [k] times, and the position it then stands on is not burned (and was not
    burned before the call either, unless the run went around the whole
    64-bit space).  After that, if [waiters] has an entry for the new [cur],
    exactly that entry is deleted and its channel is the one channel closed;
    otherwise [waiters] is unchanged and nothing is closed.  So at most one
    entry is removed and at most one channel is closed. *)
Theorem advanceAndWakeNext_skip_and_wake (m : orderMutex) :
  ∃ k : nat,
    let m' := (advanceAndWakeNext m).1 in
    let fired := (advanceAndWakeNext m).2 in
    (k ≤ size (burned m))%nat ∧
    Forall (λ p, p ∈ burned m) (run (cur m) k) ∧
    NoDup (run (cur m) k) ∧
    cur m' = run_end (cur m) k ∧
    burned m' = burned m ∖ list_to_set (run (cur m) k) ∧
    (cur m' ∉ burned m') ∧
    (Z.of_nat k < uint64_modulus → cur m' ∉ burned m) ∧
    next m' = next m ∧
    match waiters m !! cur m' with
    | Some ch => waiters m' = delete (cur m') (waiters m) ∧ fired = [ch]
    | None => waiters m' = waiters m ∧ fired = []
    end ∧
    (length fired ≤ 1)%nat ∧
    (size (waiters m) ≤ size (waiters m') + 1)%nat.
Proof.
  destruct (skip_burned_loop_spec (size (burned m)) (cur m) (burned m))
    as (k & Hk & Heq & Hall & Hnd & Hend); [done|].
  fold (skip_burned (cur m) (burned m)) in Heq.
  exists k. cbv zeta.
  pose proof (advanceAndWakeNext_cur m) as Hc.
  pose proof (advanceAndWakeNext_burned m) as Hb.
  pose proof (advanceAndWakeNext_waiters m) as Hw.
  pose proof (advanceAndWakeNext_fired m) as Hf.
  rewrite Heq in Hc, Hb. simpl in Hc, Hb.
  rewrite Hc in *. rewrite Hb, Hw, Hf.
  split_and!; try done.
  - intros Hlt Hin. apply Hend. apply elem_of_difference. split; [done|].
    rewrite elem_of_list_to_set. intros Hr%run_end_in_run. lia.
  - apply advanceAndWakeNext_next.
  - destruct (waiters m !! run_end (cur m) k) eqn:E; [done|].
    by rewrite delete_id.
  - destruct (waiters m !! run_end (cur m) k); simpl; lia.
  - destruct (waiters m !! run_end (cur m) k) eqn:E.
    + rewrite map_size_delete_Some by eauto. lia.
    + rewrite delete_id by done. lia.
Qed.

(** C3. [Unlock] checks [id == cur]: with any other ticket it panics, and
    produces no new state; with the ticket at [cur] it increments [cur] by
    one ([cur + 1] as long as [cur] is below the largest [uint64]) and then
    runs [advanceAndWakeNext] on that state. *)
Theorem Unlock_checks_cur (m : orderMutex) (t : ticket) :
  (ID t ≠ cur m →
     Unlock m t = Panic "Unlock called for a ticket that does not hold the lock") ∧
  (ID t = cur m →
     Unlock m t = Done (advanceAndWakeNext (set_cur m (incr64 (cur m)))) ∧
     cur (set_cur m (incr64 (cur m))) = incr64 (cur m) ∧
     (0 ≤ cur m < uint64_max → incr64 (cur m) = cur m + 1)).
Proof.
  unfold Unlock. split; intros H.
  - by destruct (decide (ID t ≠ cur m)).
  - destruct (decide (ID t ≠ cur m)); [done|]. split_and!; [done|done|].
    intros Hr. unfold incr64, wrap64, uint64_max in *. apply Z.mod_small. lia.
Qed.

Lemma Unlock_checks_cur_witness :
  Unlock (mkOrderMutex 3 1 ∅ ∅) 2
    = Panic "Unlock called for a ticket that does not hold the lock" ∧
  Unlock (mkOrderMutex 3 1 ∅ ∅) 1
    = Done (advanceAndWakeNext (mkOrderMutex 3 2 ∅ ∅)).
Proof.
  split.
  - apply (Unlock_checks_cur (mkOrderMutex 3 1 ∅ ∅) 2). by vm_compute.
  - apply (Unlock_checks_cur (mkOrderMutex 3 1 ∅ ∅) 1). reflexivity.
Defined.

(** C5. [ReturnTicket] of a ticket below [cur] changes nothing and closes
    nothing; it cannot panic (the function has no such outcome), and calling
    it again gives the same result. *)
Theorem ReturnTicket_resolved (m : orderMutex) (t : ticket) (Hlt : ID t < cur m) :
  ReturnTicket m t = (m, []) ∧
  ReturnTicket (ReturnTicket m t).1 t = ReturnTicket m t.
Proof.
  pose proof (ReturnTicket_behind m t Hlt) as H.
  split; [done|]. by rewrite H.
Qed.

Lemma ReturnTicket_resolved_witness :
  ReturnTicket (mkOrderMutex 5 2 {[4 := 0%nat]} {[3]}) 1
    = (mkOrderMutex 5 2 {[4 := 0%nat]} {[3]}, []).
Proof.
  apply (ReturnTicket_resolved (mkOrderMutex 5 2 {[4 := 0%nat]} {[3]}) 1).
  reflexivity.
Defined.

(** C4. [ReturnTicket] of a ticket [id >= cur] is [advanceAndWakeNext] run
    on the state in which [id] has been added to [burned] and the [waiters]
    entry of [id], if there was one, has been deleted.  The deleted entry is
    not woken: the only channel the call can close is the one registered
    under the new [cur], a key other than [id] (so it is not the channel of
    [id], no channel being registered under two keys), and [id] has no
    entry afterwards.  If [id] was [cur], [cur] moves past it (at least one
    increment; strictly greater as long as the counter does not wrap), and
    the waiter registered at the position it stops on, if any, is the one
    woken. *)
Theorem ReturnTicket_pending (m : orderMutex) (t : ticket) (Hge : cur m ≤ ID t) :
  let id := ID t in
  let m2 := mkOrderMutex (next m) (cur m) (delete id (waiters m))
                         ({[id]} ∪ burned m) in
  let m' := (ReturnTicket m t).1 in
  let fired := (ReturnTicket m t).2 in
  ReturnTicket m t = advanceAndWakeNext m2 ∧
  id ∈ burned m2 ∧
  waiters m2 !! id = None ∧
  (∀ q, q ≠ id → waiters m2 !! q = waiters m !! q) ∧
  waiters m' !! id = None ∧
  fired = match waiters m2 !! cur m' with Some ch => [ch] | None => [] end ∧
  (∀ ch, ch ∈ fired → cur m' ≠ id ∧ waiters m !! cur m' = Some ch) ∧
  (∀ ch, waiters m !! id = Some ch →
         (∀ q, waiters m !! q = Some ch → q = id) → ch ∉ fired) ∧
  (id = cur m → ∃ k : nat, cur m' = run_end id (S k)) ∧
  (id = cur m → no_wrap m → id < cur m').
Proof.
  intros id m2 m' fired.
  assert (HR : ReturnTicket m t = advanceAndWakeNext m2).
  { rewrite ReturnTicket_unfold. destruct (decide (ID t < cur m)); [lia|done]. }
  subst m' fired. rewrite HR.
  pose proof (advanceAndWakeNext_fired m2) as Hf.
  pose proof (advanceAndWakeNext_waiters m2) as Hw.
  pose proof (advanceAndWakeNext_cur m2) as Hc.
  set (m' := (advanceAndWakeNext m2).1) in *.
  assert (Hid : waiters m' !! id = None).
  { rewrite Hw. rewrite lookup_delete. case_decide; [done|].
    subst m2. simpl. apply lookup_delete_eq. }
  assert (Hfired : ∀ ch, ch ∈ (advanceAndWakeNext m2).2 →
                         cur m' ≠ id ∧ waiters m !! cur m' = Some ch).
  { intros ch Hch. rewrite Hf in Hch.
    destruct (waiters m2 !! cur m') as [ch'|] eqn:E; [|by apply elem_of_nil in Hch].
    apply list_elem_of_singleton in Hch as ->.
    assert (cur m' ≠ id) as Hne.
    { intros Heq. rewrite Heq in E. subst m2. simpl in E.
      by rewrite lookup_delete_eq in E. }
    split; [done|]. subst m2. simpl in E. by rewrite lookup_delete_ne in E. }
  split_and!; try done.
  - subst m2. simpl. set_solver.
  - subst m2. simpl. apply lookup_delete_eq.
  - intros q Hq. subst m2. simpl. by rewrite lookup_delete_ne.
  - intros ch Hch Hinj [Hne Hq]%Hfired. by apply Hne, Hinj.
  - intros Heq. subst m2. simpl in Hc.
    unfold skip_burned in Hc. rewrite <- Heq in Hc.
    assert (Hin : id ∈ ({[id]} ∪ burned m : gset Z)) by set_solver.
    pose proof (size_remove _ _ Hin) as Hs. rewrite Hs in Hc. simpl in Hc.
    destruct (decide (id ∈ ({[id]} ∪ burned m : gset Z))); [|done].
    destruct (skip_burned_loop_spec (size (({[id]} ∪ burned m) ∖ {[id]}))
                (incr64 id) (({[id]} ∪ burned m) ∖ {[id]})) as (k & _ & Hk & _); [done|].
    rewrite Hk in Hc. simpl in Hc. exists k. by rewrite run_end_S.
  - intros Heq Hnw. subst m'. rewrite <- HR. by apply ReturnTicket_at_cur.
Qed.

Lemma ReturnTicket_pending_witness :
  ReturnTicket (mkOrderMutex 5 1 {[1 := 7%nat; 3 := 8%nat]} {[2]}) 1
    = (mkOrderMutex 5 3 ∅ ∅, [8%nat]).
Proof.
  etrans.
  - apply (ReturnTicket_pending (mkOrderMutex 5 1 {[1 := 7%nat; 3 := 8%nat]} {[2]}) 1).
    by vm_compute.
  - by vm_compute.
Defined.

Lemma skip_burned_run_end (c : Z) (b : gset Z) :
  ∃ k : nat, (skip_burned c b).1 = run_end c k.
Proof.
  destruct (skip_burned_loop_spec (size b) c b) as (k & _ & Heq & _); [done|].
  exists k. unfold skip_burned. by rewrite Heq.
Qed.

(** C8. [cur] never moves backward.  In every state, [Lock] leaves [cur] as
    it is, and [Unlock] and [ReturnTicket] change it only by incrementing it
    ([Unlock] at least once).  So from every state whose frontier has room
    to advance inside the 64-bit position space ([no_wrap]), each of the
    three ends in a state whose [cur] is at least the [cur] it started
    from. *)
Theorem cur_monotone (m : orderMutex) :
  (∀ fresh t, cur (Lock_enter fresh m t).1 = cur m) ∧
  (∀ t r, Unlock m t = Done r → ∃ k : nat, cur r.1 = run_end (cur m) (S k)) ∧
  (∀ t, ∃ k : nat, cur (ReturnTicket m t).1 = run_end (cur m) k) ∧
  (no_wrap m →
     (∀ fresh t, cur m ≤ cur (Lock_enter fresh m t).1) ∧
     (∀ t r, Unlock m t = Done r → cur m ≤ cur r.1) ∧
     (∀ t, cur m ≤ cur (ReturnTicket m t).1)).
Proof.
  assert (HL : ∀ fresh t, cur (Lock_enter fresh m t).1 = cur m).
  { intros fresh t. unfold Lock_enter.
    destruct (decide (ID t = cur m)); [done|].
    by destruct (waiters m !! ID t). }
  split_and!.
  - done.
  - intros t r HU. unfold Unlock in HU.
    destruct (decide (ID t ≠ cur m)); [done|]. injection HU as <-.
    rewrite advanceAndWakeNext_cur. simpl.
    destruct (skip_burned_run_end (incr64 (cur m)) (burned m)) as [k Hk].
    exists k. rewrite Hk. symmetry. apply run_end_S.
  - intros t. rewrite ReturnTicket_unfold.
    destruct (decide (ID t < cur m)); [by exists 0%nat|].
    rewrite advanceAndWakeNext_cur. simpl. apply skip_burned_run_end.
  - intros [H0 Hlt]. split_and!.
    + intros fresh t. by rewrite HL.
    + intros t r HU. unfold Unlock in HU.
      destruct (decide (ID t ≠ cur m)); [done|]. injection HU as <-.
      rewrite advanceAndWakeNext_cur. simpl.
      assert (Hi : incr64 (cur m) = cur m + 1).
      { unfold incr64, wrap64. apply Z.mod_small. lia. }
      rewrite Hi.
      pose proof (skip_burned_mono (cur m + 1) (burned m)). lia.
    + intros t. rewrite ReturnTicket_unfold.
      destruct (decide (ID t < cur m)); [done|].
      rewrite advanceAndWakeNext_cur. simpl.
      pose proof (size_burn (burned m) (ID t)).
      pose proof (skip_burned_mono (cur m) ({[ID t]} ∪ burned m)). lia.
Qed.

Lemma cur_monotone_witness :
  cur (mkOrderMutex 5 1 {[4 := 0%nat]} {[2; 3]})
    ≤ cur (ReturnTicket (mkOrderMutex 5 1 {[4 := 0%nat]} {[2; 3]}) 1).1.
Proof.
  apply (cur_monotone (mkOrderMutex 5 1 {[4 := 0%nat]} {[2; 3]})).
  by vm_compute.
Defined.

Lemma GetTicket_in_range (m : orderMutex) :
  0 ≤ next m < uint64_max →
  GetTicket m = (set_next m (next m + 1), next m).
Proof.
  intros Hr. unfold GetTicket, uint64_max in *.
  assert (Hw : wrap64 (next m + 1) = next m + 1).
  { unfold wrap64. apply Z.mod_small. lia. }
  rewrite Hw. f_equal. unfold wrap64.
  replace (next m + 1 - 1) with (next m) by lia. apply Z.mod_small. lia.
Qed.

(** The last ticket of the space is still handed out right; only the counter
    wraps behind it. *)
Lemma GetTicket_ticket (m : orderMutex) :
  0 ≤ next m < uint64_modulus → (GetTicket m).2 = next m.
Proof.
  intros Hr. unfold GetTicket, wrap64. simpl.
  rewrite Zminus_mod_idemp_l. replace (next m + 1 - 1) with (next m) by lia.
  by apply Z.mod_small.
Qed.

Lemma GetTickets_S (n : nat) (m : orderMutex) :
  GetTickets (S n) m =
    ((GetTickets n (GetTicket m).1).1,
     (GetTicket m).2 :: (GetTickets n (GetTicket m).1).2).
Proof.
  cbn [GetTickets]. destruct (GetTicket m) as [m1 t]. cbn [fst snd].
  by destruct (GetTickets n m1).
Qed.

Lemma GetTickets_seq (n : nat) (m : orderMutex) :
  0 ≤ next m → next m + Z.of_nat n ≤ uint64_modulus →
  (GetTickets n m).2 = seqZ (next m) (Z.of_nat n).
Proof.
  revert m. induction n as [|n IH]; intros m H0 Hle; [done|].
  rewrite GetTickets_S. cbn [snd].
  replace (Z.of_nat (S n)) with (Z.succ (Z.of_nat n)) by lia.
  rewrite seqZ_cons by lia. rewrite Z.pred_succ.
  f_equal; [apply GetTicket_ticket; lia|].
  destruct n as [|n]; [done|].
  assert (Hm1 : next (GetTicket m).1 = Z.succ (next m)).
  { rewrite GetTicket_in_range; [simpl; lia|]. unfold uint64_max. lia. }
  rewrite IH; rewrite Hm1; [done|lia|lia].
Qed.

(** C9. The first [GetTicket] on a fresh mutex returns 0; the first [n]
    calls, for [n] up to the size of the position space, return
    [0, 1, ..., n-1] in call order, all different; from any state whose
    counter has not reached the last position, a call returns [next] and the
    call after it returns [next + 1], whatever [Lock], [Unlock] and
    [ReturnTicket] calls happen in between, because none of them (nor
    [advanceAndWakeNext]) writes [next]. *)
Theorem GetTicket_sequence (n : nat) (Hn : Z.of_nat n ≤ uint64_modulus) :
  (GetTicket New).2 = 0 ∧
  (GetTickets n New).2 = seqZ 0 (Z.of_nat n) ∧
  NoDup (GetTickets n New).2 ∧
  (∀ m, 0 ≤ next m < uint64_max →
        (GetTicket m).2 = next m ∧
        next (GetTicket m).1 = next m + 1 ∧
        (GetTicket (GetTicket m).1).2 = (GetTicket m).2 + 1) ∧
  (∀ m fresh t, next (Lock_enter fresh m t).1 = next m) ∧
  (∀ m t r, Unlock m t = Done r → next r.1 = next m) ∧
  (∀ m t, next (ReturnTicket m t).1 = next m) ∧
  (∀ m, next (advanceAndWakeNext m).1 = next m).
Proof.
  assert (Hs : (GetTickets n New).2 = seqZ 0 (Z.of_nat n)).
  { apply (GetTickets_seq n New); simpl; lia. }
  split_and!.
  - done.
  - done.
  - rewrite Hs. apply NoDup_seqZ.
  - intros m Hr. rewrite (GetTicket_in_range m Hr). cbn [fst snd].
    split_and!; [done|done|].
    rewrite GetTicket_ticket; [done|]. simpl. unfold uint64_max in Hr. lia.
  - intros m fresh t. unfold Lock_enter.
    destruct (decide (ID t = cur m)); [done|]. by destruct (waiters m !! ID t).
  - intros m t r HU. unfold Unlock in HU.
    destruct (decide (ID t ≠ cur m)); [done|]. injection HU as <-.
    by rewrite advanceAndWakeNext_next.
  - intros m t. rewrite ReturnTicket_unfold.
    destruct (decide (ID t < cur m)); [done|]. by rewrite advanceAndWakeNext_next.
  - apply advanceAndWakeNext_next.
Qed.

Lemma GetTicket_sequence_witness : (GetTickets 3 New).2 = [0; 1; 2].
Proof.
  apply (GetTicket_sequence 3). by vm_compute.
Defined.

Lemma reachable_GetTickets (n : nat) (m : orderMutex) :
  reachable m → reachable (GetTickets n m).1.
Proof.
  revert m. induction n as [|n IH]; intros m Hm; [done|].
  rewrite GetTickets_S. cbn [fst]. by apply IH, reach_GetTicket.
Qed.

(** C10. In every reachable state and for every ticket, a second
    [ReturnTicket] right after the first leaves the state the first one
    produced; for the ticket standing at [cur] this is under the proviso
    that the frontier has room to advance inside the 64-bit position space
    ([no_wrap]). *)
Theorem ReturnTicket_idempotent (m : orderMutex) (t : ticket)
    (Hr : reachable m) (Hnw : ID t = cur m → no_wrap m) :
  (ReturnTicket (ReturnTicket m t).1 t).1 = (ReturnTicket m t).1.
Proof.
  destruct (reachable_frontier m Hr) as [Hcb Hcw].
  destruct (decide (ID t < cur m)) as [Hlt|Hge].
  { rewrite (ReturnTicket_behind m t Hlt). simpl.
    by rewrite (ReturnTicket_behind m t Hlt). }
  destruct (decide (ID t = cur m)) as [Heq|Hne].
  - (* the ticket at the frontier: the first call moves [cur] past it *)
    pose proof (ReturnTicket_at_cur m t Heq (Hnw Heq)) as Hpast.
    by rewrite (ReturnTicket_behind _ t Hpast).
  - (* a ticket ahead of the frontier: nothing to skip, nobody to wake *)
    assert (H1 : ReturnTicket m t =
                 (mkOrderMutex (next m) (cur m) (delete (ID t) (waiters m))
                               ({[ID t]} ∪ burned m), [])).
    { rewrite ReturnTicket_unfold. destruct (decide (ID t < cur m)); [done|].
      rewrite advanceAndWakeNext_unfold. simpl.
      assert (Hs : skip_burned (cur m) ({[ID t]} ∪ burned m)
                   = (cur m, {[ID t]} ∪ burned m)).
      { unfold skip_burned. destruct (size _) ; simpl;
          (destruct (decide (cur m ∈ ({[ID t]} ∪ burned m : gset Z))); [set_solver|done]). }
      rewrite Hs. simpl. rewrite lookup_delete_ne by done. by rewrite Hcw. }
    rewrite H1. simpl. rewrite ReturnTicket_unfold. simpl.
    destruct (decide (ID t < cur m)); [done|].
    rewrite advanceAndWakeNext_unfold. simpl.
    assert (Hb : ({[ID t]} ∪ ({[ID t]} ∪ burned m) : gset Z) = {[ID t]} ∪ burned m)
      by set_solver.
    rewrite Hb.
    assert (Hs : skip_burned (cur m) ({[ID t]} ∪ burned m)
                 = (cur m, {[ID t]} ∪ burned m)).
    { unfold skip_burned. destruct (size _) ; simpl;
        (destruct (decide (cur m ∈ ({[ID t]} ∪ burned m : gset Z))); [set_solver|done]). }
    rewrite Hs. simpl. rewrite !lookup_delete_ne by done. rewrite Hcw.
    by rewrite delete_delete_eq.
Qed.

Lemma ReturnTicket_idempotent_witness :
  let m := (ReturnTicket (Lock_enter 0%nat (GetTickets 4 New).1 2).1 1).1 in
  (ReturnTicket (ReturnTicket m 0).1 0).1 = (ReturnTicket m 0).1.
Proof.
  apply ReturnTicket_idempotent.
  - apply reach_ReturnTicket, reach_Lock, reachable_GetTickets, reach_New.
  - by vm_compute.
Defined.

(** * Executions that follow the usage contract *)

Section contract.

Implicit Types (m : orderMutex) (ph : gmap Z phase) (cl : gset chan)
  (nch : nat) (s : sys).

(** One iteration of the skip loop keeps [mid_inv]. *)
Lemma mid_inv_skip_one n c w b nch cl ph :
  mid_inv (mkOrderMutex n c w b) nch cl ph → c ∈ b →
  incr64 c = c + 1 ∧
  mid_inv (mkOrderMutex n (c + 1) w (b ∖ {[c]})) nch cl ph.
Proof.
  intros [Hr Hdom Hph Hw Hb Hbg Hinj Hcl] Hc. simpl in *.
  pose proof (Hb c Hc) as Hcan.
  assert (0 ≤ c < n) as Hcn by (apply Hdom; eauto).
  split.
  { unfold incr64, wrap64, uint64_max in *. apply Z.mod_small. lia. }
  constructor; simpl; try done.
  - lia.
  - intros p f Hp. specialize (Hph p f Hp).
    assert (p ≠ c ∨ f = Cancelled) as Hpc.
    { destruct (decide (p = c)) as [->|]; [right|by left]. congruence. }
    destruct f; simpl in *;
      (destruct Hpc as [Hpc|Hpc]; [|try discriminate Hpc]).
    + split_and!; [lia|naive_solver|set_solver].
    + destruct Hph as (? & ? & [(-> & _)|(? & ? & ?)]); [done|].
      split_and!; [done|set_solver|]. right. split_and!; [lia|done|done].
    + naive_solver.
    + lia.
    + destruct Hph as [?|(? & ? & ?)]; [left; lia|].
      right. split_and!; [lia|set_solver|done].
    + destruct Hph as [?|(? & ? & ?)]; [left; lia|].
      destruct (decide (p = c)) as [->|]; [left; lia|].
      right. split_and!; [lia|set_solver|done].
  - intros p Hp. apply Hb. set_solver.
  - intros p Hp. assert (c ≤ p) by (apply Hbg; set_solver).
    assert (p ≠ c) by set_solver. lia.
Qed.

(** The skip loop keeps [mid_inv], whatever its fuel. *)
Lemma mid_inv_skip fuel n c w b nch cl ph :
  mid_inv (mkOrderMutex n c w b) nch cl ph →
  mid_inv (mkOrderMutex n (skip_burned_loop fuel c b).1 w
                        (skip_burned_loop fuel c b).2) nch cl ph.
Proof.
  revert c b. induction fuel as [|fuel IH]; intros c b Hinv; simpl.
  - by destruct (decide (c ∈ b)).
  - destruct (decide (c ∈ b)) as [Hc|]; [|done].
    destruct (mid_inv_skip_one _ _ _ _ _ _ _ Hinv Hc) as [-> Hinv'].
    by apply IH.
Qed.

(** Waking the waiter registered at [cur] keeps [mid_inv]. *)
Lemma mid_inv_wake n c w b nch cl ph :
  mid_inv (mkOrderMutex n c w b) nch cl ph →
  mid_inv (mkOrderMutex n c (delete c w) b) nch
          (cl ∪ list_to_set (match w !! c with Some ch => [ch] | None => [] end))
          ph.
Proof.
  intros Hinv. destruct (w !! c) as [ch|] eqn:E.
  2:{ rewrite delete_id by done. simpl.
      by replace (cl ∪ ∅) with cl by set_solver. }
  destruct Hinv as [Hr Hdom Hph Hw Hb Hbg Hinj Hcl]. simpl in *.
  pose proof (Hw c ch E) as Hwc.
  assert (Hchn : (ch < nch)%nat) by (by destruct (Hph _ _ Hwc) as (? & _)).
  constructor; simpl; try done.
  - intros p f Hp. specialize (Hph p f Hp).
    destruct f as [|ch2| | |]; simpl in *.
    + destruct Hph as (? & ? & ?). split_and!; [done| |done].
      rewrite lookup_delete_None. by right.
    + destruct Hph as (? & ? & [(-> & _ & Hn)|(? & ? & Hs)]); [congruence|].
      split_and!; [done|done|].
      destruct (decide (p = c)) as [->|Hne].
      * left. assert (ch2 = ch) as -> by congruence.
        split_and!; [done|set_solver|apply lookup_delete_eq].
      * right. split_and!; [done| |by rewrite lookup_delete_ne].
        assert (ch2 ≠ ch).
        { intros ->. apply Hne. by eapply Hinj. }
        set_solver.
    + destruct Hph as (? & ? & ?). split_and!; [done| |done].
      rewrite lookup_delete_None. by right.
    + done.
    + destruct Hph as [?|(? & ? & ?)]; [by left|right].
      split_and!; [done|done|]. rewrite lookup_delete_None. by right.
  - intros p ch' Hp. apply lookup_delete_Some in Hp as [_ Hp]. by apply Hw.
  - intros ch' [?|Hin]%elem_of_union; [by apply Hcl|].
    assert (ch' = ch) as -> by set_solver. done.
Qed.

(** [advanceAndWakeNext] turns a state in which [mid_inv] holds into one
    in which it holds together with [frontier_ok]. *)
Lemma mid_inv_advance m nch cl ph :
  mid_inv m nch cl ph →
  mid_inv (advanceAndWakeNext m).1 nch
          (cl ∪ list_to_set (advanceAndWakeNext m).2) ph ∧
  frontier_ok (advanceAndWakeNext m).1.
Proof.
  intros Hinv. split; [|apply advanceAndWakeNext_frontier].
  destruct m as [n c w b].
  pose proof (mid_inv_skip (size b) _ _ _ _ _ _ _ Hinv) as Hs.
  apply mid_inv_wake in Hs.
  rewrite advanceAndWakeNext_unfold. simpl.
  fold (skip_burned c b) in Hs.
  destruct (w !! (skip_burned c b).1) eqn:E; simpl; [done|].
  by rewrite delete_id in Hs.
Qed.

(** The channel [advanceAndWakeNext] closes is still open: [close] never
    meets a closed channel, which is why it is modelled as an event that
    cannot fail. *)
Lemma advance_closes_open m nch cl ph :
  mid_inv m nch cl ph → ∀ ch, ch ∈ (advanceAndWakeNext m).2 → ch ∉ cl.
Proof.
  intros Hinv ch Hch. destruct m as [n c w b].
  pose proof (mid_inv_skip (size b) _ _ _ _ _ _ _ Hinv) as Hs.
  fold (skip_burned c b) in Hs.
  rewrite advanceAndWakeNext_fired, advanceAndWakeNext_cur in Hch. simpl in Hch.
  destruct (w !! (skip_burned c b).1) as [ch'|] eqn:E; [|by apply elem_of_nil in Hch].
  apply list_elem_of_singleton in Hch as ->.
  pose proof (mi_waiters _ _ _ _ Hs _ _ E) as Hp.
  apply (mi_phase _ _ _ _ Hs) in Hp. simpl in Hp.
  destruct Hp as (_ & _ & [(_ & _ & ?)|(_ & ? & _)]); [congruence|done].
Qed.

Lemma phase_ok_ext m m' nch nch' cl p f :
  cur m' = cur m → waiters m' !! p = waiters m !! p →
  burned m' = burned m → (nch ≤ nch')%nat →
  phase_ok m nch cl p f → phase_ok m' nch' cl p f.
Proof.
  intros Hc Hw Hb Hn. destruct f; simpl; rewrite ?Hc, ?Hw, ?Hb; try done.
  intros (? & ? & ?). split_and!; [lia|done|done].
Qed.

(** At method boundaries the phase conditions are strict. *)
Lemma sys_inv_Waiting s p ch :
  sys_inv s → phases s !! p = Some (Waiting ch) →
  (p = cur (mtx s) ∧ (ch ∈ closed s) ∧ waiters (mtx s) !! p = None) ∨
  (cur (mtx s) < p ∧ (ch ∉ closed s) ∧ waiters (mtx s) !! p = Some ch).
Proof.
  intros (Hm & [Hfb Hfw] & _) Hp.
  destruct (mi_phase _ _ _ _ Hm _ _ Hp) as (_ & _ & [?|(? & ? & ?)]); [by left|].
  right. split_and!; [|done|done].
  destruct (decide (p = cur (mtx s))) as [->|]; [congruence|lia].
Qed.

Lemma sys_inv_init : sys_inv sys_init.
Proof.
  split_and!.
  - constructor; simpl; try done.
    intros p. rewrite lookup_empty. split; [by intros []|lia].
  - split; [set_solver|done].
  - done.
Qed.

Lemma entered_insert ph t f f' :
  ph !! t = Some f →
  (f = Holding ∨ f = Released ↔ f' = Holding ∨ f' = Released) →
  ∀ p, entered (<[t := f']> ph) p ↔ entered ph p.
Proof.
  intros Ht Hiff p. unfold entered.
  destruct (decide (p = t)) as [->|Hne].
  - rewrite lookup_insert_eq, Ht. naive_solver.
  - by rewrite lookup_insert_ne.
Qed.

Lemma filter_none (P : Z → Prop) `{!∀ x, Decision (P x)} (l : list Z) :
  Forall (λ p, ¬ P p) l → filter P l = [].
Proof.
  induction 1 as [|x l Hx _ IH]; [done|]. by rewrite filter_cons_False.
Qed.

Lemma filter_agree (P Q : Z → Prop) `{!∀ x, Decision (P x)}
    `{!∀ x, Decision (Q x)} (l : list Z) :
  Forall (λ p, P p ↔ Q p) l → filter P l = filter Q l.
Proof.
  induction 1 as [|x l Hx _ IH]; [done|].
  rewrite !filter_cons, IH. destruct (decide (P x)), (decide (Q x)); naive_solver.
Qed.

(** The log grows by the ticket at [c] when that ticket's [Lock] returns:
    nothing after [c] has entered. *)
Lemma filter_entered_snoc ph ph' n c :
  0 ≤ c < n →
  (∀ p, p ≠ c → ph' !! p = ph !! p) →
  entered ph' c → ¬ entered ph c →
  (∀ p, c < p → ¬ entered ph p) →
  filter (entered ph') (seqZ 0 n) = filter (entered ph) (seqZ 0 n) ++ [c].
Proof.
  intros Hc Hsame Hin Hout Hafter.
  replace n with (c + (n - c)) by lia.
  rewrite seqZ_app by lia. rewrite !filter_app.
  rewrite Z.add_0_l, (seqZ_cons c) by lia.
  rewrite filter_cons_True by done.
  rewrite (filter_cons_False (entered ph)) by done.
  rewrite (filter_none (entered ph) (seqZ (Z.succ c) _)),
    (filter_none (entered ph') (seqZ (Z.succ c) _)).
  - rewrite app_nil_r. f_equal. apply filter_agree, Forall_seqZ.
    intros p Hp. unfold entered. rewrite Hsame by lia. done.
  - apply Forall_seqZ. intros p Hp. unfold entered.
    rewrite Hsame by lia. apply Hafter. lia.
  - apply Forall_seqZ. intros p Hp. apply Hafter. lia.
Qed.

Lemma step_GetTicket_inv s s' :
  sys_inv s → step AGetTicket s = Some s' → sys_inv s'.
Proof.
  intros (Hm & Hf & Hl) Hstep. unfold step in Hstep.
  destruct (decide (next (mtx s) < uint64_max)) as [Hlt|]; [|done].
  pose proof (mi_range _ _ _ _ Hm) as Hr.
  rewrite GetTicket_in_range in Hstep by lia.
  injection Hstep as <-. unfold ID.
  destruct Hm as [_ Hdom Hph Hw Hb Hbg Hinj Hcl].
  assert (Hn : phases s !! next (mtx s) = None).
  { apply eq_None_not_Some. rewrite Hdom. lia. }
  split_and!; simpl.
  - constructor; simpl; try done.
    + lia.
    + intros p. rewrite lookup_insert_is_Some, Hdom. 
      destruct (decide (next (mtx s) = p)); [naive_solver lia|].
      split; [intros [?|[_ ?]]; lia|]. intros ?. right. split; [done|lia].
    + intros p f [[<- <-]|[Hne Hp]]%lookup_insert_Some.
      * simpl. split_and!; [lia| |].
        -- destruct (waiters (mtx s) !! next (mtx s)) eqn:E; [|done].
           apply Hw in E. congruence.
        -- intros Hin. apply Hb in Hin. congruence.
      * eapply phase_ok_ext; [..|by apply Hph]; done.
    + intros p ch Hp. rewrite lookup_insert_ne; [by apply Hw|].
      intros <-. apply Hw in Hp. congruence.
    + intros p Hp. rewrite lookup_insert_ne; [by apply Hb|].
      intros <-. apply Hb in Hp. congruence.
    + intros p q ch [[_ ?]|[_ Hp]]%lookup_insert_Some
                    [[_ ?]|[_ Hq]]%lookup_insert_Some; try done.
      by eapply Hinj.
  - done.
  - unfold log_ok in *. simpl. rewrite Hl.
    rewrite seqZ_app by lia. rewrite filter_app.
    assert (seqZ (0 + next (mtx s)) 1 = [next (mtx s)]) as -> by done.
    rewrite filter_cons_False, filter_nil, app_nil_r.
    + apply filter_agree, Forall_seqZ. intros p Hp. unfold entered.
      by rewrite lookup_insert_ne by lia.
    + unfold entered. rewrite lookup_insert_eq. naive_solver.
Qed.

(** Nothing beyond the frontier has entered. *)
Lemma sys_inv_not_entered s p :
  sys_inv s → cur (mtx s) < p → ¬ entered (phases s) p.
Proof.
  intros (Hm & _ & _) Hlt [H|H]; apply (mi_phase _ _ _ _ Hm) in H; simpl in H; lia.
Qed.

(** The ticket at the frontier is let in: its owner's phase becomes
    [Holding] and it is appended to the log. *)
Lemma enter_inv s f :
  sys_inv s → phases s !! cur (mtx s) = Some f →
  f ≠ Holding → f ≠ Released →
  (∀ ch, f = Waiting ch → ch ∈ closed s) →
  sys_inv (mkSys (mtx s) (nchan s) (closed s)
                 (<[cur (mtx s) := Holding]> (phases s))
                 (lock_log s ++ [cur (mtx s)])).
Proof.
  intros Hinv Hc Hna Hnr Hcl.
  pose proof Hinv as (Hm & Hf & Hl).
  destruct Hm as [Hr Hdom Hph Hw Hb Hbg Hinj Hcls]. destruct Hf as [Hfb Hfw].
  split_and!; simpl.
  - constructor; simpl; try done.
    + intros p. rewrite lookup_insert_is_Some, <- Hdom.
      destruct (decide (cur (mtx s) = p)) as [<-|]; naive_solver.
    + intros p f' [[<- <-]|[Hne Hp]]%lookup_insert_Some; [done|by apply Hph].
    + intros p ch Hp. rewrite lookup_insert_ne; [by apply Hw|]. congruence.
    + intros p Hp. rewrite lookup_insert_ne; [by apply Hb|]. congruence.
    + intros p q ch [[_ ?]|[_ Hp]]%lookup_insert_Some
                    [[_ ?]|[_ Hq]]%lookup_insert_Some; try done.
      by eapply Hinj.
  - done.
  - unfold log_ok in *. simpl. rewrite Hl. symmetry.
    apply filter_entered_snoc.
    + apply Hdom. eauto.
    + intros p Hp. by rewrite lookup_insert_ne.
    + left. apply lookup_insert_eq.
    + unfold entered. rewrite Hc. naive_solver.
    + intros p Hp. by apply sys_inv_not_entered.
Qed.

Lemma step_Lock_inv s s' t :
  sys_inv s → step (ALock t) s = Some s' → sys_inv s'.
Proof.
  intros Hinv Hstep. unfold step in Hstep.
  destruct (phases s !! ID t) as [[| | | |]|] eqn:Ht; try done.
  pose proof Hinv as (Hm & Hf & Hl).
  destruct (mi_phase _ _ _ _ Hm _ _ Ht) as (Hge & Hwt & Hbt).
  unfold Lock_enter in Hstep.
  destruct (decide (ID t = cur (mtx s))) as [Heq|Hne].
  - (* fast path *)
    injection Hstep as <-. rewrite Heq in *.
    eapply enter_inv; eauto; congruence.
  - (* park on a channel made for the ticket *)
    rewrite Hwt in Hstep. injection Hstep as <-.
    destruct Hm as [Hr Hdom Hph Hw Hb Hbg Hinj Hcls]. destruct Hf as [Hfb Hfw].
    split_and!; simpl.
    + constructor; simpl; try done.
      * intros p. rewrite lookup_insert_is_Some, <- Hdom.
        destruct (decide (ID t = p)) as [<-|]; naive_solver.
      * intros p f [[<- <-]|[Hnp Hp]]%lookup_insert_Some.
        -- simpl. split_and!; [lia|done|]. right.
           split_and!; [done| |apply lookup_insert_eq].
           intros Hin%Hcls. lia.
        -- eapply phase_ok_ext; [..|by apply Hph]; simpl; try done; [|lia].
           by rewrite lookup_insert_ne.
      * intros p ch [[<- <-]|[Hnp Hp]]%lookup_insert_Some.
        -- apply lookup_insert_eq.
        -- rewrite lookup_insert_ne by done. by apply Hw.
      * intros p Hp. rewrite lookup_insert_ne; [by apply Hb|].
        intros <-. done.
      * intros p q ch [[<- Hc1]|[Hnp Hp]]%lookup_insert_Some
                      [[<- Hc2]|[Hnq Hq]]%lookup_insert_Some; try done.
        -- injection Hc1 as <-. apply Hph in Hq as (? & _). lia.
        -- injection Hc2 as <-. apply Hph in Hp as (? & _). lia.
        -- by eapply Hinj.
      * intros ch Hin%Hcls. lia.
    + split; simpl; [done|]. by rewrite lookup_insert_ne.
    + unfold log_ok in *. simpl. rewrite Hl.
      apply filter_agree, Forall_seqZ. intros p _. symmetry.
      eapply entered_insert; [done|]. naive_solver.
Qed.

Lemma step_Wake_inv s s' t :
  sys_inv s → step (AWake t) s = Some s' → sys_inv s'.
Proof.
  intros Hinv Hstep. unfold step in Hstep.
  destruct (phases s !! ID t) as [[|ch| | |]|] eqn:Ht; try done.
  destruct (decide (ch ∈ closed s)) as [Hcl|]; [|done].
  injection Hstep as <-.
  destruct (sys_inv_Waiting _ _ _ Hinv Ht) as [(Heq & _)|(_ & ? & _)]; [|done].
  rewrite Heq in *.
  eapply enter_inv; eauto; try congruence.
Qed.

(** A caller whose [Lock] has returned holds the ticket at [cur], so its
    [Unlock] does not panic. *)
Lemma Unlock_Holding s t :
  sys_inv s → phases s !! ID t = Some Holding →
  ID t = cur (mtx s) ∧
  Unlock (mtx s) t =
    Done (advanceAndWakeNext (set_cur (mtx s) (cur (mtx s) + 1))).
Proof.
  intros (Hm & _ & _) Ht.
  destruct (mi_phase _ _ _ _ Hm _ _ Ht) as (Heq & _). split; [done|].
  unfold Unlock. destruct (decide (ID t ≠ cur (mtx s))); [done|].
  assert (0 ≤ ID t < next (mtx s)) by (apply (mi_dom _ _ _ _ Hm); eauto).
  pose proof (mi_range _ _ _ _ Hm).
  assert (incr64 (cur (mtx s)) = cur (mtx s) + 1) as ->; [|done].
  unfold incr64, wrap64, uint64_max in *. apply Z.mod_small. lia.
Qed.

Lemma step_Unlock_inv s s' t :
  sys_inv s → step (AUnlock t) s = Some s' → sys_inv s'.
Proof.
  intros Hinv Hstep. unfold step in Hstep.
  destruct (phases s !! ID t) as [[| | | |]|] eqn:Ht; try done.
  destruct (Unlock_Holding _ _ Hinv Ht) as [Heq HU].
  rewrite HU in Hstep. rewrite Heq in *.
  set (m1 := set_cur (mtx s) (cur (mtx s) + 1)) in *.
  destruct (advanceAndWakeNext m1) as [m' fired] eqn:E.
  injection Hstep as <-.
  pose proof Hinv as (Hm & Hf & Hl).
  assert (Hmid : mid_inv m1 (nchan s) (closed s)
                   (<[cur (mtx s) := Released]> (phases s))).
  { destruct Hm as [Hr Hdom Hph Hw Hb Hbg Hinj Hcls]. destruct Hf as [Hfb Hfw].
    assert (0 ≤ cur (mtx s) < next (mtx s)) by (apply Hdom; eauto).
    constructor; simpl; try done.
    - lia.
    - intros p. rewrite lookup_insert_is_Some, <- Hdom.
      destruct (decide (cur (mtx s) = p)) as [<-|]; naive_solver.
    - intros p f [[<- <-]|[Hne Hp]]%lookup_insert_Some; [simpl; lia|].
      specialize (Hph p f Hp). destruct f; simpl in *.
      + split_and!; [lia|naive_solver|naive_solver].
      + destruct Hph as (? & ? & [(? & _)|(? & ? & ?)]); [done|].
        split_and!; [done|done|]. right. split_and!; [lia|done|done].
      + naive_solver.
      + lia.
      + destruct Hph as [?|(? & ? & ?)]; [left; lia|right].
        split_and!; [lia|done|done].
    - intros p ch Hp. rewrite lookup_insert_ne; [by apply Hw|]. congruence.
    - intros p Hp. rewrite lookup_insert_ne; [by apply Hb|]. congruence.
    - intros p Hp. assert (cur (mtx s) ≠ p) by congruence.
      apply Hbg in Hp. lia.
    - intros p q ch [[_ ?]|[_ Hp]]%lookup_insert_Some
                    [[_ ?]|[_ Hq]]%lookup_insert_Some; try done.
      by eapply Hinj. }
  apply mid_inv_advance in Hmid as [Hmid Hfr]. rewrite E in Hmid, Hfr.
  split_and!; simpl; [done|done|].
  unfold log_ok in *. simpl. rewrite Hl.
  change m' with (m', fired).1. rewrite <- E, advanceAndWakeNext_next. simpl.
  apply filter_agree, Forall_seqZ. intros p _. symmetry.
  eapply entered_insert; [done|]. naive_solver.
Qed.

Lemma step_ReturnTicket_inv s s' t :
  sys_inv s → step (AReturnTicket t) s = Some s' → sys_inv s'.
Proof.
  intros Hinv Hstep. unfold step in Hstep.
  pose proof Hinv as (Hm & Hf & Hl).
  destruct (phases s !! ID t) as [f0|] eqn:Ht; [|done].
  destruct (decide (ID t < cur (mtx s))) as [Hlt|Hge].
  { (* the ticket is behind the frontier: nothing happens *)
    rewrite (ReturnTicket_behind _ _ Hlt) in Hstep.
    assert (f0 = Released ∨ f0 = Cancelled) as Hf0.
    { apply (mi_phase _ _ _ _ Hm) in Ht. destruct f0; simpl in Ht; try lia; eauto. }
    assert (s' = mkSys (mtx s) (nchan s) (closed s) (phases s) (lock_log s)) as ->.
    { simpl in Hstep. replace (closed s ∪ ∅) with (closed s) in Hstep by set_solver.
      destruct Hf0 as [->| ->]; injection Hstep as <-; [done|].
      by rewrite insert_id. }
    by destruct s. }
  assert (f0 = Issued ∨ f0 = Cancelled) as Hf0.
  { destruct f0; eauto; try done.
    apply (mi_phase _ _ _ _ Hm) in Ht. simpl in Ht. lia. }
  assert (Hwt : waiters (mtx s) !! ID t = None).
  { apply (mi_phase _ _ _ _ Hm) in Ht.
    destruct Hf0 as [-> | ->]; simpl in Ht; [naive_solver|].
    destruct Ht as [?|(_ & _ & ?)]; [lia|done]. }
  set (m2 := mkOrderMutex (next (mtx s)) (cur (mtx s))
               (delete (ID t) (waiters (mtx s))) ({[ID t]} ∪ burned (mtx s))).
  assert (HR : ReturnTicket (mtx s) t = advanceAndWakeNext m2).
  { rewrite ReturnTicket_unfold. by destruct (decide (ID t < cur (mtx s))). }
  assert (s' = mkSys (advanceAndWakeNext m2).1 (nchan s)
                 (closed s ∪ list_to_set (advanceAndWakeNext m2).2)
                 (<[ID t := Cancelled]> (phases s)) (lock_log s)) as ->.
  { rewrite HR in Hstep. destruct (advanceAndWakeNext m2).
    destruct Hf0 as [-> | ->]; by injection Hstep as <-. }
  assert (Hmid : mid_inv m2 (nchan s) (closed s)
                   (<[ID t := Cancelled]> (phases s))).
  { destruct Hm as [Hr Hdom Hph Hw Hb Hbg Hinj Hcls]. destruct Hf as [Hfb Hfw].
    constructor; simpl; try done.
    - intros p. rewrite lookup_insert_is_Some, <- Hdom.
      destruct (decide (ID t = p)) as [<-|]; naive_solver.
    - intros p f [[<- <-]|[Hne Hp]]%lookup_insert_Some.
      + simpl. right. split_and!; [lia|set_solver|apply lookup_delete_eq].
      + specialize (Hph p f Hp).
        assert (Hd : delete (ID t) (waiters (mtx s)) !! p = waiters (mtx s) !! p)
          by (by rewrite lookup_delete_ne).
        destruct f; simpl in *; rewrite ?Hd.
        * split_and!; [naive_solver|naive_solver|set_solver].
        * destruct Hph as (? & ? & ?). split_and!; [done|set_solver|done].
        * split_and!; [naive_solver|naive_solver|set_solver].
        * done.
        * destruct Hph as [?|(? & ? & ?)]; [by left|right].
          split_and!; [done|set_solver|done].
    - intros p ch [Hne Hp]%lookup_delete_Some.
      rewrite lookup_insert_ne by done. by apply Hw.
    - intros p [->%elem_of_singleton|Hp]%elem_of_union;
        [apply lookup_insert_eq|].
      destruct (decide (ID t = p)) as [<-|]; [apply lookup_insert_eq|].
      rewrite lookup_insert_ne by done. by apply Hb.
    - intros p [->%elem_of_singleton|Hp]%elem_of_union; [lia|by apply Hbg].
    - intros p q ch [[_ ?]|[_ Hp]]%lookup_insert_Some
                    [[_ ?]|[_ Hq]]%lookup_insert_Some; try done.
      by eapply Hinj. }
  apply mid_inv_advance in Hmid as [Hmid Hfr].
  split_and!; simpl; [done|done|].
  unfold log_ok in *. simpl. rewrite Hl, advanceAndWakeNext_next. simpl.
  apply filter_agree, Forall_seqZ. intros p _. symmetry.
  eapply entered_insert; [done|]. naive_solver.
Qed.

Lemma step_inv a s s' : sys_inv s → step a s = Some s' → sys_inv s'.
Proof.
  destruct a; eauto using step_GetTicket_inv, step_Lock_inv, step_Wake_inv,
    step_Unlock_inv, step_ReturnTicket_inv.
Qed.

Lemma run_actions_inv tr s s' :
  sys_inv s → run_actions tr s = Some s' → sys_inv s'.
Proof.
  revert s. induction tr as [|a tr IH]; intros s Hinv Hrun; simpl in Hrun.
  - by injection Hrun as <-.
  - destruct (step a s) as [s1|] eqn:E; [|done].
    eapply IH; [|done]. by eapply step_inv.
Qed.

Lemma contract_reachable_inv s : contract_reachable s → sys_inv s.
Proof. intros [tr Htr]. eapply run_actions_inv; [apply sys_inv_init|done]. Qed.

End contract.

Section contract_runs.

(** The mutex states of contract executions are among the states reachable
    by arbitrary calls. *)
Lemma step_reachable a s s' :
  reachable (mtx s) → step a s = Some s' → reachable (mtx s').
Proof.
  intros Hr Hstep. destruct a as [|t|t|t|t]; unfold step in Hstep.
  - destruct (decide (next (mtx s) < uint64_max)); [|done].
    pose proof (reach_GetTicket _ Hr) as Hr'.
    destruct (GetTicket (mtx s)). by injection Hstep as <-.
  - destruct (phases s !! ID t) as [[| | | |]|]; try done.
    pose proof (reach_Lock _ (nchan s) t Hr) as Hr'.
    destruct (Lock_enter (nchan s) (mtx s) t) as [m' []];
      by injection Hstep as <-.
  - destruct (phases s !! ID t) as [[|ch| | |]|]; try done.
    destruct (decide (ch ∈ closed s)); [|done]. by injection Hstep as <-.
  - destruct (phases s !! ID t) as [[| | | |]|]; try done.
    destruct (Unlock (mtx s) t) as [[m' fired]|] eqn:E; [|done].
    injection Hstep as <-. by apply (reach_Unlock _ _ _ Hr E).
  - pose proof (reach_ReturnTicket _ t Hr) as Hr'.
    destruct (phases s !! ID t) as [[| | | |]|]; try done;
      destruct (ReturnTicket (mtx s) t); by injection Hstep as <-.
Qed.

Lemma contract_reachable_reachable s :
  contract_reachable s → reachable (mtx s).
Proof.
  intros [tr Htr]. assert (Hr : reachable (mtx sys_init)) by constructor.
  revert Htr Hr. generalize sys_init as s0. revert s.
  induction tr as [|a tr IH]; intros s s0 Hrun Hr; simpl in Hrun.
  - by injection Hrun as <-.
  - destruct (step a s0) as [s1|] eqn:E; [|done].
    eapply IH; [done|]. by eapply step_reachable.
Qed.

(** The scenarios of the repository's tests.  [TestLogicSimple]: three
    tickets locked and unlocked in turn, then returned. *)
Example test_logic_simple :
  lock_log (exec [AGetTicket; AGetTicket; AGetTicket;
                  ALock 0; AUnlock 0; ALock 1; AUnlock 1; ALock 2; AUnlock 2;
                  AReturnTicket 0; AReturnTicket 1; AReturnTicket 2])
  = [0; 1; 2].
Proof. by vm_compute. Qed.

(** [TestLogicReversed]: the callers arrive in the order 2, 1, 0.  While 0
    has not unlocked, neither 2 nor 1 can come out of [Lock]. *)
Example test_logic_reversed_blocked :
  let s := exec [AGetTicket; AGetTicket; AGetTicket; ALock 2; ALock 1] in
  phases s !! 2 = Some (Waiting 0%nat) ∧ phases s !! 1 = Some (Waiting 1%nat) ∧
  step (AWake 2) s = None ∧ step (AWake 1) s = None ∧
  phases (exec [AGetTicket; AGetTicket; AGetTicket; ALock 2; ALock 1;
                ALock 0; AUnlock 0]) !! 1 = Some (Waiting 1%nat) ∧
  step (AWake 2) (exec [AGetTicket; AGetTicket; AGetTicket; ALock 2; ALock 1;
                        ALock 0; AUnlock 0]) = None.
Proof. by vm_compute. Qed.

Example test_logic_reversed :
  lock_log (exec [AGetTicket; AGetTicket; AGetTicket; ALock 2; ALock 1;
                  ALock 0; AUnlock 0; AWake 1; AUnlock 1; AWake 2; AUnlock 2;
                  AReturnTicket 0; AReturnTicket 1; AReturnTicket 2])
  = [0; 1; 2].
Proof. by vm_compute. Qed.

End contract_runs.

Section order.

Lemma StronglySorted_seqZ (m n : Z) : StronglySorted Z.lt (seqZ m n).
Proof.
  destruct (decide (n ≤ 0)) as [Hn|Hn].
  { unfold seqZ. replace (Z.to_nat n) with 0%nat by lia. constructor. }
  rewrite <- (Z2Nat.id n) by lia. generalize (Z.to_nat n) as k. clear.
  intros k. revert m. induction k as [|k IH]; intros m; [constructor|].
  rewrite seqZ_cons by lia.
  replace (Z.pred (Z.of_nat (S k))) with (Z.of_nat k) by lia.
  constructor; [apply IH|]. apply Forall_seqZ. lia.
Qed.

Lemma StronglySorted_filter (P : Z → Prop) `{!∀ x, Decision (P x)} (l : list Z) :
  StronglySorted Z.lt l → StronglySorted Z.lt (filter P l).
Proof.
  induction 1 as [|x l Hl IH Hx]; [constructor|].
  rewrite filter_cons. destruct (decide (P x)); [|done].
  constructor; [done|]. rewrite Forall_forall in *.
  intros y Hy%list_elem_of_filter. apply Hx, Hy.
Qed.

Lemma filter_split_length (P Q : Z → Prop) `{!∀ x, Decision (P x)}
    `{!∀ x, Decision (Q x)} (l : list Z) :
  Forall (λ p, (P p ∨ Q p) ∧ ¬ (P p ∧ Q p)) l →
  (length (filter P l) + length (filter Q l))%nat = length l.
Proof.
  induction 1 as [|x l Hx _ IH]; [done|].
  rewrite !filter_cons.
  destruct (decide (P x)), (decide (Q x)); simpl; naive_solver lia.
Qed.

End order.

(** * Claims about executions *)

(** C7. The invariants documented on [orderMutex] hold in the state [New]
    builds and after every call made under the usage contract: [next >= cur];
    [waiters] has (being a map) at most one channel per ticket and only for
    tickets [>= cur]; [burned] holds no ticket [< cur]. *)
Theorem documented_inv_preserved (s : sys) (Hs : contract_reachable s) :
  documented_inv New ∧
  documented_inv (mtx s) ∧
  (∀ a s', step a s = Some s' → documented_inv (mtx s')).
Proof.
  assert (Hdoc : ∀ s0, sys_inv s0 → documented_inv (mtx s0)).
  { intros s0 (Hm & Hf & _). split_and!.
    - pose proof (mi_range _ _ _ _ Hm). lia.
    - intros p ch Hp%(mi_waiters _ _ _ _ Hm)%(mi_phase _ _ _ _ Hm). simpl in Hp. lia.
    - congruence.
    - intros p Hp%(mi_burned_ge _ _ _ _ Hm). lia. }
  split_and!.
  - apply (Hdoc sys_init), sys_inv_init.
  - by apply Hdoc, contract_reachable_inv.
  - intros a s' Hstep. eapply Hdoc, step_inv; [|done].
    by apply contract_reachable_inv.
Qed.

Lemma documented_inv_preserved_witness : documented_inv (mtx (exec demo_prefix)).
Proof.
  apply (documented_inv_preserved (exec demo_prefix)).
  exists demo_prefix. by vm_compute.
Defined.

(** C6. [Lock] returns only when [cur] is its ticket.  Its first half returns
    at once exactly when [id == cur], and then the state is untouched; in
    every execution under the usage contract, whenever a step makes a [Lock]
    call return (the log of admissions grows by a ticket), that step is the
    fast path or the wake-up of that ticket's caller, it leaves the mutex
    state as it is, and [cur] is the ticket. *)
Theorem Lock_returns_at_cur :
  (∀ fresh m t, ID t = cur m → Lock_enter fresh m t = (m, Entered)) ∧
  (∀ fresh m t m', Lock_enter fresh m t = (m', Entered) → ID t = cur m ∧ m' = m) ∧
  (∀ s a s' p, contract_reachable s → step a s = Some s' →
     lock_log s' = lock_log s ++ [p] →
     cur (mtx s') = p ∧ mtx s' = mtx s ∧ (a = ALock p ∨ a = AWake p)).
Proof.
  split_and!.
  - intros fresh m t Heq. unfold Lock_enter. by destruct (decide (ID t = cur m)).
  - intros fresh m t m' H. unfold Lock_enter in H.
    destruct (decide (ID t = cur m)); [by injection H as <-|].
    by destruct (waiters m !! ID t).
  - intros s a s' p Hs%contract_reachable_inv Hstep Hlog.
    assert (Hno : lock_log s ≠ lock_log s ++ [p]).
    { intros H%(f_equal length). rewrite length_app in H. simpl in H. lia. }
    destruct a as [|t|t|t|t]; unfold step in Hstep.
    + destruct (decide (next (mtx s) < uint64_max)); [|done].
      destruct (GetTicket (mtx s)). by injection Hstep as <-.
    + destruct (phases s !! ID t) as [[| | | |]|] eqn:Ht; try done.
      unfold Lock_enter in Hstep.
      destruct (decide (ID t = cur (mtx s))) as [Heq|].
      * injection Hstep as <-. simpl in *.
        apply app_inv_head in Hlog. injection Hlog as <-. eauto.
      * destruct (waiters (mtx s) !! ID t); by injection Hstep as <-.
    + destruct (phases s !! ID t) as [[|ch| | |]|] eqn:Ht; try done.
      destruct (decide (ch ∈ closed s)); [|done].
      injection Hstep as <-. simpl in *.
      apply app_inv_head in Hlog. injection Hlog as <-.
      destruct (sys_inv_Waiting _ _ _ Hs Ht) as [(? & _)|(_ & ? & _)]; [|done].
      eauto.
    + destruct (phases s !! ID t) as [[| | | |]|]; try done.
      destruct (Unlock (mtx s) t) as [[]|]; [|done]. by injection Hstep as <-.
    + destruct (phases s !! ID t) as [[| | | |]|]; try done;
        destruct (ReturnTicket (mtx s) t); by injection Hstep as <-.
Qed.

Lemma Lock_returns_at_cur_witness :
  cur (mtx (exec (demo_prefix ++ [AUnlock 0; AWake 2]))) = 2.
Proof.
  apply (proj2 (proj2 Lock_returns_at_cur)
           (exec (demo_prefix ++ [AUnlock 0])) (AWake 2)).
  - exists (demo_prefix ++ [AUnlock 0]). by vm_compute.
  - by vm_compute.
  - by vm_compute.
Defined.

(** C1. In every execution under the usage contract in which every ticket
    handed out has been either cancelled (before any [Lock]) or let in and
    released, the tickets in the order their [Lock] calls returned are
    exactly the tickets that were not cancelled, in strictly increasing
    order: none missing, none twice, and their number is the number of
    tickets handed out minus the number cancelled. *)
Theorem admission_order (s : sys)
    (Hs : contract_reachable s) (Hc : complete s) :
  let n := next (mtx s) in
  let cancelled := filter (λ p, phases s !! p = Some Cancelled) (seqZ 0 n) in
  lock_log s = filter (λ p, phases s !! p ≠ Some Cancelled) (seqZ 0 n) ∧
  StronglySorted Z.lt (lock_log s) ∧
  NoDup (lock_log s) ∧
  (∀ p, p ∈ lock_log s ↔ 0 ≤ p < n ∧ phases s !! p ≠ Some Cancelled) ∧
  (∀ p, p ∈ cancelled → p ∉ lock_log s) ∧
  length (lock_log s) = (Z.to_nat n - length cancelled)%nat.
Proof.
  intros n cancelled.
  pose proof (contract_reachable_inv s Hs) as (Hm & Hf & Hl).
  assert (Hiff : ∀ p, 0 ≤ p < n →
            (entered (phases s) p ↔ phases s !! p ≠ Some Cancelled)).
  { intros p Hp. apply (mi_dom _ _ _ _ Hm) in Hp as [f Hp].
    unfold entered. destruct (Hc p f Hp) as [-> | ->]; rewrite Hp; naive_solver. }
  assert (Heq : lock_log s
                = filter (λ p, phases s !! p ≠ Some Cancelled) (seqZ 0 n)).
  { rewrite Hl. apply filter_agree, Forall_seqZ. intros p Hp. apply Hiff. lia. }
  assert (Hin : ∀ p, p ∈ lock_log s
                     ↔ 0 ≤ p < n ∧ phases s !! p ≠ Some Cancelled).
  { intros p. rewrite Heq, list_elem_of_filter, elem_of_seqZ. naive_solver lia. }
  split_and!.
  - done.
  - rewrite Heq. apply StronglySorted_filter, StronglySorted_seqZ.
  - rewrite Heq. apply NoDup_filter, NoDup_seqZ.
  - done.
  - intros p [Hp _]%list_elem_of_filter [_ Hn]%Hin. done.
  - assert (length (lock_log s) + length cancelled = Z.to_nat n)%nat; [|lia].
    rewrite Heq. subst cancelled. rewrite <- (length_seqZ 0 n).
    apply filter_split_length, Forall_seqZ. intros p _.
    destruct (decide (phases s !! p = Some Cancelled)); naive_solver.
Qed.

Lemma admission_order_witness : lock_log (exec demo_trace) = [0; 2; 3].
Proof.
  etrans.
  - apply (admission_order (exec demo_trace)).
    + exists demo_trace. by vm_compute.
    + unfold complete.
      apply (bool_decide_unpack (map_Forall _ (phases (exec demo_trace)))).
      by vm_compute.
  - by vm_compute.
Defined.

(** * Further properties of executions under the usage contract *)

(** The phase of a ticket behind the frontier is final. *)
Lemma sys_inv_behind s p f :
  sys_inv s → phases s !! p = Some f → p < cur (mtx s) →
  f = Released ∨ f = Cancelled.
Proof.
  intros (Hm & _ & _) Hp Hlt. apply (mi_phase _ _ _ _ Hm) in Hp.
  destruct f; simpl in Hp; eauto; lia.
Qed.

(** A ticket whose phase is not final is at or beyond the frontier. *)
Lemma sys_inv_pending s p f :
  sys_inv s → phases s !! p = Some f → f ≠ Released → f ≠ Cancelled →
  cur (mtx s) ≤ p < next (mtx s).
Proof.
  intros Hinv Hp Hr Hc. pose proof Hinv as (Hm & _ & _).
  assert (0 ≤ p < next (mtx s)) by (apply (mi_dom _ _ _ _ Hm); eauto).
  destruct (decide (p < cur (mtx s))) as [Hlt|]; [|lia].
  destruct (sys_inv_behind _ _ _ Hinv Hp Hlt); congruence.
Qed.

(** Mutual exclusion.  In every state of an execution under the usage
    contract at most one caller is between the return of its [Lock] and its
    [Unlock], and its ticket is [cur]. *)
Theorem mutual_exclusion (s : sys) (p q : Z)
    (Hs : contract_reachable s)
    (Hp : phases s !! p = Some Holding) (Hq : phases s !! q = Some Holding) :
  p = q ∧ p = cur (mtx s).
Proof.
  apply contract_reachable_inv in Hs as (Hm & _ & _).
  apply (mi_phase _ _ _ _ Hm) in Hp as (-> & _).
  apply (mi_phase _ _ _ _ Hm) in Hq as (-> & _). done.
Qed.

Lemma mutual_exclusion_witness : 0 = cur (mtx (exec demo_prefix)).
Proof.
  apply (mutual_exclusion (exec demo_prefix) 0 0).
  - exists demo_prefix. by vm_compute.
  - by vm_compute.
  - by vm_compute.
Defined.

(** The caller whose [Lock] has returned can always [Unlock]: the check
    [id != m.cur] does not fire, so [Unlock] does not panic under the usage
    contract. *)
Theorem Unlock_never_panics (s : sys) (t : ticket)
    (Hs : contract_reachable s) (Ht : phases s !! ID t = Some Holding) :
  (∃ r, Unlock (mtx s) t = Done r) ∧ is_Some (step (AUnlock t) s).
Proof.
  apply contract_reachable_inv in Hs.
  destruct (Unlock_Holding _ _ Hs Ht) as [_ HU]. split; [eauto|].
  unfold step. rewrite Ht, HU. by destruct (advanceAndWakeNext _).
Qed.

Lemma Unlock_never_panics_witness : is_Some (step (AUnlock 0) (exec demo_prefix)).
Proof.
  apply (Unlock_never_panics (exec demo_prefix) 0).
  - exists demo_prefix. by vm_compute.
  - by vm_compute.
Defined.

(** Precise wake-up.  For a caller parked in [Lock], its channel is closed
    exactly when its ticket is [cur]; until then the channel is the one
    registered for the ticket in [waiters]; and no other parked caller waits
    on the same channel.  So a [close] lets exactly one caller proceed, the
    one whose turn it is. *)
Theorem wakeup_exact (s : sys) (p : Z) (ch : chan)
    (Hs : contract_reachable s) (Hp : phases s !! p = Some (Waiting ch)) :
  (ch ∈ closed s ↔ p = cur (mtx s)) ∧
  (p ≠ cur (mtx s) → cur (mtx s) < p ∧ waiters (mtx s) !! p = Some ch) ∧
  (p = cur (mtx s) → waiters (mtx s) !! p = None) ∧
  (∀ q, phases s !! q = Some (Waiting ch) → q = p) ∧
  (ch < nchan s)%nat.
Proof.
  apply contract_reachable_inv in Hs. pose proof Hs as (Hm & _ & _).
  destruct (sys_inv_Waiting _ _ _ Hs Hp) as [(? & ? & ?)|(? & ? & ?)];
    (split_and!;
     [naive_solver lia|naive_solver lia|naive_solver lia
     |intros q Hq; by eapply (mi_chan_inj _ _ _ _ Hm)
     |by destruct (mi_phase _ _ _ _ Hm _ _ Hp) as (? & _)]).
Qed.

Lemma wakeup_exact_witness :
  0%nat ∈ closed (exec (demo_prefix ++ [AUnlock 0]))
  ↔ 2 = cur (mtx (exec (demo_prefix ++ [AUnlock 0]))).
Proof.
  apply (wakeup_exact (exec (demo_prefix ++ [AUnlock 0])) 2 0%nat).
  - exists (demo_prefix ++ [AUnlock 0]). by vm_compute.
  - by vm_compute.
Defined.

(** Progress.  As long as some ticket has not reached its final phase, the
    frontier ticket [cur] has been handed out and its owner is not blocked:
    it can enter [Lock] on the fast path, or its receive completes, or it
    can [Unlock].  No execution under the usage contract deadlocks. *)
Theorem frontier_not_blocked (s : sys) (p : Z) (f : phase)
    (Hs : contract_reachable s) (Hp : phases s !! p = Some f)
    (Hr : f ≠ Released) (Hc : f ≠ Cancelled) :
  let c := cur (mtx s) in
  c < next (mtx s) ∧
  ((phases s !! c = Some Issued ∧ is_Some (step (ALock c) s) ∧
    (Lock_enter (nchan s) (mtx s) c).2 = Entered) ∨
   (∃ ch, phases s !! c = Some (Waiting ch) ∧ is_Some (step (AWake c) s)) ∨
   (phases s !! c = Some Holding ∧ is_Some (step (AUnlock c) s))).
Proof.
  intros c. apply contract_reachable_inv in Hs. pose proof Hs as (Hm & [Hfb Hfw] & _).
  pose proof (sys_inv_pending _ _ _ Hs Hp Hr Hc) as Hrange.
  pose proof (mi_range _ _ _ _ Hm) as Hcr.
  split; [subst c; lia|].
  assert (is_Some (phases s !! c)) as [fc Hfc].
  { apply (mi_dom _ _ _ _ Hm). subst c. lia. }
  pose proof (mi_phase _ _ _ _ Hm _ _ Hfc) as Hok.
  destruct fc as [|ch| | |]; simpl in Hok.
  - left. split; [done|].
    assert (HL : Lock_enter (nchan s) (mtx s) c = (mtx s, Entered)).
    { unfold Lock_enter, ID. subst c. by destruct (decide (cur (mtx s) = cur (mtx s))). }
    unfold step, ID. rewrite Hfc, HL. eauto.
  - right; left. exists ch. split; [done|].
    destruct (sys_inv_Waiting _ _ _ Hs Hfc) as [(_ & Hcl & _)|(? & _)]; [|subst c; lia].
    unfold step, ID. rewrite Hfc. destruct (decide (ch ∈ closed s)); [eauto|done].
  - right; right. split; [done|].
    destruct (Unlock_Holding s c Hs Hfc) as [_ HU].
    unfold step, ID. rewrite Hfc, HU. by destruct (advanceAndWakeNext _).
  - subst c. lia.
  - destruct Hok as [?|(_ & ? & _)]; [subst c; lia|done].
Qed.

Lemma frontier_not_blocked_witness :
  cur (mtx (exec (demo_prefix ++ [AUnlock 0])))
    < next (mtx (exec (demo_prefix ++ [AUnlock 0]))).
Proof.
  apply (frontier_not_blocked (exec (demo_prefix ++ [AUnlock 0])) 3 (Waiting 1%nat)).
  - exists (demo_prefix ++ [AUnlock 0]). by vm_compute.
  - by vm_compute.
  - done.
  - done.
Defined.


(** No bookkeeping is left behind.  Once every ticket handed out has been
    cancelled or released, [cur] has caught up with [next] and both maps
    are empty again. *)
Theorem quiescent_when_complete (s : sys)
    (Hs : contract_reachable s) (Hc : complete s) :
  cur (mtx s) = next (mtx s) ∧ waiters (mtx s) = ∅ ∧ burned (mtx s) = ∅.
Proof.
  apply contract_reachable_inv in Hs. pose proof Hs as (Hm & [Hfb Hfw] & _).
  pose proof (mi_range _ _ _ _ Hm) as Hr.
  assert (Hfinal : ∀ p f, phases s !! p = Some f → p < cur (mtx s)).
  { intros p f Hp. destruct (Hc p f Hp) as [-> | ->];
      apply (mi_phase _ _ _ _ Hm) in Hp; simpl in Hp; [done|].
    destruct Hp as [?|(? & Hb & _)]; [done|].
    destruct (decide (p = cur (mtx s))) as [->|]; [done|].
    apply (mi_burned _ _ _ _ Hm) in Hb as Hcan.
    assert (cur (mtx s) < next (mtx s)) as Hlt.
    { assert (0 ≤ p < next (mtx s)) by (apply (mi_dom _ _ _ _ Hm); eauto). lia. }
    assert (is_Some (phases s !! cur (mtx s))) as [fc Hfc]
      by (apply (mi_dom _ _ _ _ Hm); lia).
    destruct (Hc _ _ Hfc) as [-> | ->];
      apply (mi_phase _ _ _ _ Hm) in Hfc; simpl in Hfc; [lia|].
    destruct Hfc as [?|(_ & ? & _)]; [lia|done]. }
  split_and!.
  - destruct (decide (cur (mtx s) = next (mtx s))) as [|Hne]; [done|].
    assert (is_Some (phases s !! cur (mtx s))) as [fc Hfc]
      by (apply (mi_dom _ _ _ _ Hm); lia).
    apply Hfinal in Hfc. lia.
  - apply map_empty. intros p. destruct (waiters (mtx s) !! p) as [ch|] eqn:E; [|done].
    apply (mi_waiters _ _ _ _ Hm) in E. destruct (Hc _ _ E); done.
  - apply set_eq. intros p. split; [|set_solver]. intros Hp.
    pose proof (mi_burned_ge _ _ _ _ Hm _ Hp).
    apply (mi_burned _ _ _ _ Hm) in Hp. apply Hfinal in Hp. lia.
Qed.

Lemma quiescent_when_complete_witness :
  cur (mtx (exec demo_trace)) = next (mtx (exec demo_trace)) ∧
  waiters (mtx (exec demo_trace)) = ∅ ∧ burned (mtx (exec demo_trace)) = ∅.
Proof.
  apply (quiescent_when_complete (exec demo_trace)).
  - exists demo_trace. by vm_compute.
  - unfold complete.
    apply (bool_decide_unpack (map_Forall _ (phases (exec demo_trace)))).
    by vm_compute.
Defined.

(** Bookkeeping is kept for pending tickets only.  In every state of an
    execution under the usage contract, every key of [waiters] and every
    element of [burned] is a ticket that has been handed out and lies
    strictly ahead of [cur]; no ticket is in both; a ticket has a [waiters]
    entry exactly when its owner is parked and it is not yet its turn, and is
    in [burned] exactly when it was cancelled and [cur] has not passed it. *)
Theorem bookkeeping_pending_only (s : sys) (Hs : contract_reachable s) :
  0 ≤ cur (mtx s) ≤ next (mtx s) ∧ next (mtx s) < uint64_modulus ∧
  (∀ p, is_Some (waiters (mtx s) !! p) ∨ p ∈ burned (mtx s) →
        cur (mtx s) < p < next (mtx s)) ∧
  (∀ p, is_Some (waiters (mtx s) !! p) → p ∉ burned (mtx s)) ∧
  (∀ p ch, waiters (mtx s) !! p = Some ch ↔
           phases s !! p = Some (Waiting ch) ∧ p ≠ cur (mtx s)) ∧
  (∀ p, p ∈ burned (mtx s) ↔
        phases s !! p = Some Cancelled ∧ cur (mtx s) < p).
Proof.
  apply contract_reachable_inv in Hs. pose proof Hs as (Hm & [Hfb Hfw] & _).
  pose proof (mi_range _ _ _ _ Hm) as Hr.
  assert (Hw : ∀ p ch, waiters (mtx s) !! p = Some ch →
             phases s !! p = Some (Waiting ch) ∧ cur (mtx s) < p < next (mtx s)).
  { intros p ch E. pose proof (mi_waiters _ _ _ _ Hm _ _ E) as Hp.
    split; [done|].
    assert (0 ≤ p < next (mtx s)) by (apply (mi_dom _ _ _ _ Hm); eauto).
    destruct (sys_inv_Waiting _ _ _ Hs Hp) as [(_ & _ & ?)|(? & _)]; [congruence|lia]. }
  assert (Hb : ∀ p, p ∈ burned (mtx s) →
             phases s !! p = Some Cancelled ∧ cur (mtx s) < p < next (mtx s)).
  { intros p Hp. pose proof (mi_burned _ _ _ _ Hm _ Hp) as Hc.
    pose proof (mi_burned_ge _ _ _ _ Hm _ Hp).
    assert (0 ≤ p < next (mtx s)) by (apply (mi_dom _ _ _ _ Hm); eauto).
    split; [done|]. destruct (decide (p = cur (mtx s))) as [->|]; [done|lia]. }
  split; [lia|]. split; [unfold uint64_max in Hr; lia|].
  split_and!.
  - intros p [[ch E]|Hp]; [by apply Hw in E as [_ ?]|by apply Hb in Hp as [_ ?]].
  - intros p [ch E] Hp. apply Hw in E as [E _]. apply Hb in Hp as [Hp _]. congruence.
  - intros p ch. split.
    + intros E. apply Hw in E as [? ?]. split; [done|lia].
    + intros [Hp Hne].
      destruct (sys_inv_Waiting _ _ _ Hs Hp) as [(? & _)|(_ & _ & ?)]; done.
  - intros p. split.
    + intros Hp. apply Hb in Hp as [? ?]. split; [done|lia].
    + intros [Hp Hlt]. apply (mi_phase _ _ _ _ Hm) in Hp. simpl in Hp.
      destruct Hp as [?|(_ & ? & _)]; [lia|done].
Qed.

Lemma bookkeeping_pending_only_witness :
  0 ≤ cur (mtx (exec demo_prefix)) ≤ next (mtx (exec demo_prefix)).
Proof.
  apply (bookkeeping_pending_only (exec demo_prefix)).
  exists demo_prefix. by vm_compute.
Defined.

(** [Lock] returns only after every earlier ticket is done.  Whenever the
    [Lock] call of a ticket has returned, each ticket handed out before it
    has been released or cancelled, and no later ticket has been let in. *)
Theorem predecessors_resolved (s : sys) (p : Z)
    (Hs : contract_reachable s) (Hp : entered (phases s) p) :
  p ≤ cur (mtx s) ∧
  (∀ q, 0 ≤ q < p →
        phases s !! q = Some Released ∨ phases s !! q = Some Cancelled) ∧
  (∀ q, p < q → phases s !! q = Some Holding → phases s !! p = Some Released) ∧
  (∀ q, cur (mtx s) < q → ¬ entered (phases s) q).
Proof.
  apply contract_reachable_inv in Hs. pose proof Hs as (Hm & _ & _).
  pose proof (mi_range _ _ _ _ Hm) as Hr.
  assert (Hle : p ≤ cur (mtx s)).
  { destruct Hp as [Hp|Hp]; apply (mi_phase _ _ _ _ Hm) in Hp; simpl in Hp; lia. }
  split_and!.
  - done.
  - intros q Hq.
    assert (is_Some (phases s !! q)) as [f Hf] by (apply (mi_dom _ _ _ _ Hm); lia).
    rewrite Hf. destruct (sys_inv_behind _ _ _ Hs Hf) as [-> | ->]; [lia|eauto..].
  - intros q Hq Hh. destruct Hp as [Hp|Hp]; [|done].
    apply (mi_phase _ _ _ _ Hm) in Hp as (-> & _).
    apply (mi_phase _ _ _ _ Hm) in Hh as (-> & _). lia.
  - intros q Hq. by apply sys_inv_not_entered.
Qed.

Lemma predecessors_resolved_witness :
  2 ≤ cur (mtx (exec (demo_prefix ++ [AUnlock 0; AWake 2]))).
Proof.
  apply (predecessors_resolved (exec (demo_prefix ++ [AUnlock 0; AWake 2])) 2).
  - exists (demo_prefix ++ [AUnlock 0; AWake 2]). by vm_compute.
  - left. by vm_compute.
Defined.

(** The order of admission holds at every moment, not only at the end.  In
    every state of an execution under the usage contract the tickets logged
    as let in are in strictly increasing order (so none twice), none of them
    is beyond [cur], none of them was cancelled, and the log holds exactly
    the tickets whose [Lock] has returned. *)
Theorem lock_log_increasing (s : sys) (Hs : contract_reachable s) :
  StronglySorted Z.lt (lock_log s) ∧
  NoDup (lock_log s) ∧
  (∀ p, p ∈ lock_log s ↔ entered (phases s) p) ∧
  (∀ p, p ∈ lock_log s → 0 ≤ p ≤ cur (mtx s) ∧ p < next (mtx s) ∧
                          phases s !! p ≠ Some Cancelled).
Proof.
  apply contract_reachable_inv in Hs. pose proof Hs as (Hm & _ & Hl).
  assert (Hin : ∀ p, p ∈ lock_log s ↔ entered (phases s) p).
  { intros p. rewrite Hl, list_elem_of_filter, elem_of_seqZ. split; [naive_solver|].
    intros Hp. split; [done|].
    assert (is_Some (phases s !! p)) as Hsome by (destruct Hp as [-> | ->]; eauto).
    apply (mi_dom _ _ _ _ Hm) in Hsome. lia. }
  split_and!.
  - rewrite Hl. apply StronglySorted_filter, StronglySorted_seqZ.
  - rewrite Hl. apply NoDup_filter, NoDup_seqZ.
  - done.
  - intros p Hp%Hin.
    assert (is_Some (phases s !! p)) as Hsome by (destruct Hp as [-> | ->]; eauto).
    apply (mi_dom _ _ _ _ Hm) in Hsome.
    split_and!; [lia| |lia|destruct Hp; congruence].
    destruct Hp as [Hp|Hp]; apply (mi_phase _ _ _ _ Hm) in Hp; simpl in Hp; lia.
Qed.

Lemma lock_log_increasing_witness :
  StronglySorted Z.lt (lock_log (exec (demo_prefix ++ [AUnlock 0; AWake 2]))).
Proof.
  apply (lock_log_increasing (exec (demo_prefix ++ [AUnlock 0; AWake 2]))).
  exists (demo_prefix ++ [AUnlock 0; AWake 2]). by vm_compute.
Defined.

(** * Further properties of single calls, with or without the contract *)

Lemma incr64_range (c : Z) : 0 ≤ incr64 c < uint64_modulus.
Proof. unfold incr64, wrap64. by apply Z.mod_pos_bound. Qed.

Lemma incr64_ahead (c p : Z) :
  0 ≤ c < uint64_modulus → c < p → incr64 c ≤ p.
Proof.
  intros Hc Hp. unfold incr64, wrap64.
  destruct (decide (c + 1 < uint64_modulus)).
  - rewrite Z.mod_small by lia. lia.
  - replace (c + 1) with uint64_modulus by lia. rewrite Z.mod_same by done. lia.
Qed.

(** The skip loop keeps [cur] in range and every burned ticket at or ahead
    of it. *)
Lemma skip_burned_loop_ahead fuel c b :
  0 ≤ c < uint64_modulus → (∀ p, p ∈ b → c ≤ p) →
  0 ≤ (skip_burned_loop fuel c b).1 < uint64_modulus ∧
  (∀ p, p ∈ (skip_burned_loop fuel c b).2 → (skip_burned_loop fuel c b).1 ≤ p).
Proof.
  revert c b. induction fuel as [|fuel IH]; intros c b Hc Hb; simpl.
  - by destruct (decide (c ∈ b)).
  - destruct (decide (c ∈ b)); [|done].
    apply IH; [apply incr64_range|].
    intros p [Hp Hne%not_elem_of_singleton]%elem_of_difference.
    apply incr64_ahead; [done|]. specialize (Hb p Hp). lia.
Qed.

Lemma advanceAndWakeNext_ahead (m : orderMutex) :
  0 ≤ cur m < uint64_modulus → (∀ p, p ∈ burned m → cur m ≤ p) →
  0 ≤ cur (advanceAndWakeNext m).1 < uint64_modulus ∧
  (∀ p, p ∈ burned (advanceAndWakeNext m).1 → cur (advanceAndWakeNext m).1 < p).
Proof.
  intros Hc Hb.
  destruct (skip_burned_loop_ahead (size (burned m)) _ _ Hc Hb) as [Hr Hge].
  fold (skip_burned (cur m) (burned m)) in Hr, Hge.
  destruct (advanceAndWakeNext_frontier m) as [Hnb _].
  rewrite advanceAndWakeNext_cur, advanceAndWakeNext_burned in *.
  split; [done|]. intros p Hp. specialize (Hge p Hp).
  destruct (decide (p = (skip_burned (cur m) (burned m)).1)) as [->|]; [done|lia].
Qed.

(** Whatever the callers do, contract or not, after every call: the two
    counters are 64-bit values, every burned ticket lies strictly ahead of
    [cur] (so [burned] never holds a ticket that [cur] has reached or
    passed), and no waiter is registered for [cur] itself. *)
Theorem any_calls_invariants (m : orderMutex) (Hr : reachable m) :
  0 ≤ cur m < uint64_modulus ∧
  0 ≤ next m < uint64_modulus ∧
  (∀ p, p ∈ burned m → cur m < p) ∧
  waiters m !! cur m = None.
Proof.
  assert (HM : 0 < uint64_modulus) by done.
  induction Hr as [|m _ IH|m fresh t _ IH|m t r _ IH HU|m t _ IH].
  - split; [simpl; lia|]. split; [simpl; lia|]. split; [set_solver|done].
  - destruct IH as (? & ? & ? & ?). unfold GetTicket; simpl.
    split; [done|]. split; [|done]. unfold wrap64. by apply Z.mod_pos_bound.
  - destruct IH as (? & ? & ? & ?). unfold Lock_enter.
    destruct (decide (ID t = cur m)); [done|].
    destruct (waiters m !! ID t); [done|]. simpl.
    split; [done|]. split; [done|]. split; [done|]. by rewrite lookup_insert_ne.
  - destruct IH as (Hc & Hn & Hb & Hw). unfold Unlock in HU.
    destruct (decide (ID t ≠ cur m)); [done|]. injection HU as <-.
    destruct (advanceAndWakeNext_ahead (set_cur m (incr64 (cur m)))) as [Hc' Hb'].
    { simpl. apply incr64_range. }
    { simpl. intros p Hp. apply incr64_ahead; [done|by apply Hb]. }
    rewrite advanceAndWakeNext_next. simpl.
    split; [done|]. split; [done|]. split; [done|].
    apply advanceAndWakeNext_frontier.
  - destruct IH as (Hc & Hn & Hb & Hw). rewrite ReturnTicket_unfold.
    destruct (decide (ID t < cur m)); [done|].
    set (m2 := mkOrderMutex _ _ _ _).
    destruct (advanceAndWakeNext_ahead m2) as [Hc' Hb'].
    { done. }
    { simpl. intros p [->%elem_of_singleton|Hp]%elem_of_union; [lia|].
      specialize (Hb p Hp). lia. }
    rewrite advanceAndWakeNext_next. simpl.
    split; [done|]. split; [done|]. split; [done|].
    apply advanceAndWakeNext_frontier.
Qed.

Lemma any_calls_invariants_witness :
  waiters (ReturnTicket (Lock_enter 0%nat (GetTickets 4 New).1 2).1 1).1
    !! cur (ReturnTicket (Lock_enter 0%nat (GetTickets 4 New).1 2).1 1).1 = None.
Proof.
  apply any_calls_invariants.
  apply reach_ReturnTicket, reach_Lock, reachable_GetTickets, reach_New.
Defined.

Lemma skip_burned_live (c : Z) (b : gset Z) : c ∉ b → skip_burned c b = (c, b).
Proof.
  intros Hc. unfold skip_burned.
  destruct (size b); simpl; by destruct (decide (c ∈ b)).
Qed.

(** When [cur] is not burned and nobody waits at [cur], the call changes
    nothing and closes nothing. *)
Lemma advanceAndWakeNext_settled (m : orderMutex) :
  frontier_ok m → advanceAndWakeNext m = (m, []).
Proof.
  intros [Hb Hw]. rewrite advanceAndWakeNext_unfold, skip_burned_live by done.
  simpl. rewrite Hw. by destruct m.
Qed.

(** [advanceAndWakeNext] settles the state: a second call right after the
    first changes nothing and closes no channel. *)
Theorem advanceAndWakeNext_idempotent (m : orderMutex) :
  advanceAndWakeNext (advanceAndWakeNext m).1 = ((advanceAndWakeNext m).1, []).
Proof. apply advanceAndWakeNext_settled, advanceAndWakeNext_frontier. Qed.

(** The slow path of [Lock].  A caller whose ticket is not [cur] parks on
    the channel registered for the ticket, which is made only if there was
    none; after the call [waiters] maps the ticket to that channel, every
    other entry and [next], [cur], [burned] are as before; and a second
    [Lock] for the same ticket parks on the same channel and changes
    nothing. *)
Theorem Lock_enter_parks (fresh fresh2 : chan) (m : orderMutex) (t : ticket)
    (Hne : ID t ≠ cur m) :
  let m' := (Lock_enter fresh m t).1 in
  let ch := default fresh (waiters m !! ID t) in
  (Lock_enter fresh m t).2 = Parked ch ∧
  waiters m' = <[ID t := ch]> (waiters m) ∧
  (is_Some (waiters m !! ID t) → m' = m) ∧
  next m' = next m ∧ cur m' = cur m ∧ burned m' = burned m ∧
  Lock_enter fresh2 m' t = (m', Parked ch).
Proof.
  intros m' ch. subst m' ch. unfold Lock_enter.
  destruct (decide (ID t = cur m)); [done|].
  destruct (waiters m !! ID t) as [ch|] eqn:E; simpl.
  - split_and!; try done.
    + by rewrite insert_id.
    + destruct (decide (ID t = cur m)); [done|]. by rewrite E.
  - split_and!; try done.
    destruct (decide (ID t = cur m)); [done|]. by rewrite lookup_insert_eq.
Qed.

Lemma Lock_enter_parks_witness :
  (Lock_enter 5%nat (mkOrderMutex 3 0 ∅ ∅) 2).2 = Parked 5%nat.
Proof.
  refine (proj1 (Lock_enter_parks 5%nat 6%nat (mkOrderMutex 3 0 ∅ ∅) 2 _)).
  by vm_compute.
Defined.

(** An uncontended ticket leaves the mutex as it found it, one position
    further.  On a mutex with [cur = next] and both maps empty, the ticket
    handed out is [next]; its [Lock] takes the fast path without making a
    channel; its [Unlock] closes nothing and leaves [cur = next] with both
    maps empty, after which [ReturnTicket] is a no-op.  If the ticket is
    cancelled instead, [ReturnTicket] likewise leaves [cur = next] and both
    maps empty: the burned mark is deleted at once. *)
Theorem uncontended_ticket (n : Z) (fresh : chan) (Hn : 0 ≤ n < uint64_max) :
  let idle := mkOrderMutex n n ∅ ∅ in
  let issued := mkOrderMutex (n + 1) n ∅ ∅ in
  let idle' := mkOrderMutex (n + 1) (n + 1) ∅ ∅ in
  GetTicket idle = (issued, n) ∧
  Lock_enter fresh issued n = (issued, Entered) ∧
  Unlock issued n = Done (idle', []) ∧
  ReturnTicket idle' n = (idle', []) ∧
  ReturnTicket issued n = (idle', []).
Proof.
  cbv zeta. unfold uint64_max in Hn.
  assert (Hi : incr64 n = n + 1).
  { unfold incr64, wrap64. apply Z.mod_small. lia. }
  assert (Hadv : advanceAndWakeNext (mkOrderMutex (n + 1) (n + 1) ∅ ∅)
                 = (mkOrderMutex (n + 1) (n + 1) ∅ ∅, [])).
  { apply advanceAndWakeNext_settled. split; [set_solver|done]. }
  split_and!.
  - rewrite GetTicket_in_range by (unfold uint64_max; simpl; lia). done.
  - unfold Lock_enter, ID. cbn [cur]. by destruct (decide (n = n)).
  - unfold Unlock, ID, set_cur. cbn [cur next waiters burned].
    destruct (decide (n ≠ n)); [done|]. by rewrite Hi, Hadv.
  - apply ReturnTicket_behind. unfold ID. cbn [cur]. lia.
  - rewrite ReturnTicket_unfold. unfold ID. cbn [cur next waiters burned].
    destruct (decide (n < n)); [lia|].
    rewrite advanceAndWakeNext_unfold. cbn [cur next waiters burned].
    assert (Hs : skip_burned n ({[n]} ∪ ∅) = (n + 1, ∅)).
    { unfold skip_burned.
      replace ({[n]} ∪ ∅ : gset Z) with ({[n]} : gset Z) by set_solver.
      rewrite size_singleton. simpl.
      destruct (decide (n ∈ ({[n]} : gset Z))); [|set_solver].
      rewrite Hi. destruct (decide (n + 1 ∈ ({[n]} ∖ {[n]} : gset Z))); [set_solver|].
      f_equal. set_solver. }
    rewrite Hs. cbn [fst snd]. by rewrite delete_empty, lookup_empty.
Qed.

Lemma uncontended_ticket_witness :
  Unlock (mkOrderMutex 8 7 ∅ ∅) 7 = Done (mkOrderMutex 8 8 ∅ ∅, []).
Proof.
  apply (uncontended_ticket 7 0%nat). by vm_compute.
Defined.

(** * The ordering check of the test *)

(** The marked keys of a run are keys of the map. *)
Lemma marked_run_size (bt : gmap Z bool) (d : Z) (r : nat) :
  (∀ q, d ≤ q < d + Z.of_nat r → burnedTickets_at bt q = true) →
  (r ≤ size bt)%nat.
Proof.
  intros Hrun.
  assert (Hsub : list_to_set (seqZ d (Z.of_nat r)) ⊆ dom bt).
  { intros q Hq%elem_of_list_to_set%elem_of_seqZ. apply elem_of_dom.
    specialize (Hrun q Hq). unfold burnedTickets_at in Hrun.
    destruct (bt !! q); [eauto|done]. }
  apply subseteq_size in Hsub.
  rewrite size_list_to_set, length_seqZ, size_dom in Hsub by apply NoDup_seqZ.
  lia.
Qed.

(** The loop of the check steps over a run of marked tickets and stops on
    the first unmarked one. *)
Lemma skip_desired_run (bt : gmap Z bool) (r fuel : nat) (d : Z) :
  0 ≤ d → d + Z.of_nat r ≤ uint64_max → (r ≤ fuel)%nat →
  (∀ q, d ≤ q < d + Z.of_nat r → burnedTickets_at bt q = true) →
  burnedTickets_at bt (d + Z.of_nat r) = false →
  skip_desired fuel bt d = Some (d + Z.of_nat r).
Proof.
  revert fuel d. induction r as [|r IH]; intros fuel d H0 Hmax Hfuel Hrun Hstop.
  - rewrite Z.add_0_r in *. destruct fuel; simpl; by rewrite Hstop.
  - destruct fuel as [|fuel]; [lia|]. simpl.
    rewrite Hrun by lia.
    assert (Hi : incr64 d = d + 1).
    { unfold incr64, wrap64, uint64_max in *. apply Z.mod_small. lia. }
    rewrite Hi, (IH fuel (d + 1)); [f_equal; lia|lia|lia|lia| |].
    + intros q Hq. apply Hrun. lia.
    + by replace (d + 1 + Z.of_nat r) with (d + Z.of_nat (S r)) by lia.
Qed.

(** The checks pass along a list of tickets in which the ones let in are
    the unmarked ones. *)
Lemma order_checks_pass (bt : gmap Z bool) (fuel : nat)
    (P : Z → Prop) `{!∀ x, Decision (P x)} (k : nat) (d0 d : Z) :
  0 ≤ d0 ≤ d → d + Z.of_nat k ≤ uint64_max → (size bt ≤ fuel)%nat →
  (∀ q, d0 ≤ q < d → burnedTickets_at bt q = true) →
  (∀ q, d ≤ q < d + Z.of_nat k →
        burnedTickets_at bt q = bool_decide (¬ P q)) →
  ∃ d', order_checks fuel bt d0 (filter P (seqZ d (Z.of_nat k)))
          = CheckPassed d' ∧ d0 ≤ d' ≤ d + Z.of_nat k.
Proof.
  revert d0 d. induction k as [|k IH]; intros d0 d Hd Hmax Hfuel Hlag Hbt.
  - exists d0. split; [done|lia].
  - rewrite seqZ_cons by lia.
    replace (Z.pred (Z.of_nat (S k))) with (Z.of_nat k) by lia.
    rewrite filter_cons. destruct (decide (P d)) as [HP|HP].
    + assert (Hstop : burnedTickets_at bt d = false).
      { rewrite Hbt by lia. apply bool_decide_eq_false. tauto. }
      assert (Hskip : skip_desired fuel bt d0 = Some d).
      { rewrite (skip_desired_run bt (Z.to_nat (d - d0)) fuel d0);
          [f_equal; lia|lia|lia| | |].
        - pose proof (marked_run_size bt d0 (Z.to_nat (d - d0))) as Hsz.
          etrans; [apply Hsz|done]. intros q Hq. apply Hlag. lia.
        - intros q Hq. apply Hlag. lia.
        - by replace (d0 + Z.of_nat (Z.to_nat (d - d0))) with d by lia. }
      assert (Hi : incr64 d = Z.succ d).
      { unfold incr64, wrap64, uint64_max in *. apply Z.mod_small. lia. }
      cbn [order_checks]. unfold order_check. rewrite Hskip.
      destruct (decide (d = d)); [|done]. rewrite Hi.
      destruct (IH (Z.succ d) (Z.succ d)) as (d' & Hd' & Hr); [lia|lia|done| | |].
      * intros q Hq. lia.
      * intros q Hq. apply Hbt. lia.
      * exists d'. split; [done|lia].
    + destruct (IH d0 (Z.succ d)) as (d' & Hd' & Hr); [lia|lia|done| | |].
      * intros q Hq. destruct (decide (q = d)) as [->|]; [|apply Hlag; lia].
        rewrite Hbt by lia. by apply bool_decide_eq_true.
      * intros q Hq. apply Hbt. lia.
      * exists d'. split; [done|lia].
Qed.

(** [TestRandomLocks] never reports a broken order.  In every execution
    under the usage contract in which the owners follow the script of the
    test, the check made in the critical section passes for every caller let
    in so far, in the order in which they were let in: the branch that
    prints "FATAL: ordering was broken" is not taken, and the loop of the
    check exits within as many iterations as [burnedTickets] has keys. *)
Theorem test_order_never_fatal (bt : gmap Z bool) (s : sys) (fuel : nat)
    (Hs : contract_reachable s) (Hscript : follows_script bt s)
    (Hfuel : (size bt ≤ fuel)%nat) :
  ∃ d, order_checks fuel bt 0 (lock_log s) = CheckPassed d ∧
       0 ≤ d ≤ next (mtx s).
Proof.
  apply contract_reachable_inv in Hs. pose proof Hs as (Hm & _ & Hl).
  pose proof (mi_range _ _ _ _ Hm) as Hr.
  set (c := cur (mtx s)) in *. set (n := next (mtx s)) in *.
  set (c' := if decide (entered (phases s) c) then c + 1 else c).
  assert (Hc' : c ≤ c' ≤ n).
  { subst c'. destruct (decide (entered (phases s) c)) as [He|]; [|lia].
    assert (is_Some (phases s !! c)) as Hsome by (destruct He as [-> | ->]; eauto).
    apply (mi_dom _ _ _ _ Hm) in Hsome. fold n in Hsome. lia. }
  assert (Hc1 : c' ≤ c + 1).
  { subst c'. destruct (decide (entered (phases s) c)); lia. }
  assert (Hafter : ∀ q, c' ≤ q → ¬ entered (phases s) q).
  { intros q Hq. destruct (decide (q = c)) as [->|].
    - subst c'. destruct (decide (entered (phases s) c)); [lia|done].
    - apply sys_inv_not_entered; [done|]. fold c. lia. }
  assert (Hbefore : ∀ q, 0 ≤ q < c' →
            burnedTickets_at bt q = bool_decide (¬ entered (phases s) q)).
  { intros q Hq.
    assert (is_Some (phases s !! q)) as [f Hf]
      by (apply (mi_dom _ _ _ _ Hm); fold n; lia).
    pose proof (Hscript q f Hf) as Hsc.
    destruct (decide (q < c)) as [Hlt|Hge].
    - destruct (sys_inv_behind _ _ _ Hs Hf Hlt) as [-> | ->]; simpl in Hsc;
        rewrite Hsc; symmetry.
      + apply bool_decide_eq_false. intros Hn. apply Hn. by right.
      + apply bool_decide_eq_true. unfold entered. rewrite Hf. naive_solver.
    - assert (q = c) as -> by lia.
      assert (entered (phases s) c) as He.
      { subst c'. destruct (decide (entered (phases s) c)); [done|lia]. }
      symmetry. rewrite bool_decide_eq_false_2 by tauto. symmetry.
      destruct He as [He|He]; rewrite He in Hf; injection Hf as <-; done. }
  assert (Hlog : lock_log s
                 = filter (entered (phases s)) (seqZ 0 (Z.of_nat (Z.to_nat c')))).
  { rewrite Hl. fold n. rewrite Z2Nat.id by lia.
    assert (seqZ 0 n = seqZ 0 c' ++ seqZ c' (n - c')) as ->.
    { rewrite <- (Z.add_0_l c') at 2. rewrite <- seqZ_app by lia. f_equal. lia. }
    rewrite filter_app, (filter_none _ (seqZ c' _)), app_nil_r; [done|].
    apply Forall_seqZ. intros q Hq. apply Hafter. lia. }
  rewrite Hlog.
  destruct (order_checks_pass bt fuel (entered (phases s)) (Z.to_nat c') 0 0)
    as (d & Hd & Hdr); [lia|lia|done|intros; lia| |].
  - intros q Hq. apply Hbefore. lia.
  - exists d. split; [done|lia].
Qed.

Lemma test_order_never_fatal_witness :
  ∃ d, order_checks 4
         {[0 := false; 1 := true; 2 := false; 3 := false]} 0
         (lock_log (exec demo_trace)) = CheckPassed d ∧
       0 ≤ d ≤ next (mtx (exec demo_trace)).
Proof.
  apply (test_order_never_fatal _ (exec demo_trace) 4).
  - exists demo_trace. by vm_compute.
  - unfold follows_script.
    apply (bool_decide_unpack (map_Forall _ (phases (exec demo_trace)))).
    by vm_compute.
  - by vm_compute.
Defined.

(** * The sequential benchmark *)

Lemma run_actions_app (t1 t2 : list action) (s : sys) :
  run_actions (t1 ++ t2) s = run_actions t1 s ≫= run_actions t2.
Proof.
  revert s. induction t1 as [|a t1 IH]; intros s; simpl; [done|].
  destruct (step a s); [apply IH|done].
Qed.

Lemma bench_issue_one (N : Z) (s : sys) :
  bench_state N 0 s → 0 ≤ N < uint64_max →
  ∃ s', step AGetTicket s = Some s' ∧ bench_state (N + 1) 0 s'.
Proof.
  intros (Hm & Hn & Hc & Hl & Hp) HN. unfold step.
  destruct (decide (next (mtx s) < uint64_max)) as [|Hge].
  2:{ rewrite Hm in Hge. simpl in Hge. lia. }
  rewrite GetTicket_in_range by (rewrite Hm; simpl; lia).
  eexists. split; [done|]. rewrite Hm. unfold ID, set_next.
  split_and!; cbn [mtx nchan closed lock_log phases next cur waiters burned];
    try done.
  intros j. rewrite lookup_insert, Hp.
  repeat case_decide; try done; lia.
Qed.

Lemma bench_issue (k : nat) (N : Z) (s : sys) :
  bench_state N 0 s → 0 ≤ N → N + Z.of_nat k ≤ uint64_max →
  ∃ s', run_actions (replicate k AGetTicket) s = Some s' ∧
        bench_state (N + Z.of_nat k) 0 s'.
Proof.
  revert N s. induction k as [|k IH]; intros N s Hst H0 Hmax.
  - exists s. rewrite Z.add_0_r. done.
  - destruct (bench_issue_one N s) as (s1 & Hs1 & Hst1); [done|lia|].
    cbn [replicate run_actions]. rewrite Hs1.
    destruct (IH (N + 1) s1) as (s' & Hrun & Hst'); [done|lia|lia|].
    exists s'. split; [exact Hrun|].
    by replace (N + Z.of_nat (S k)) with (N + 1 + Z.of_nat k) by lia.
Qed.

Lemma bench_cycle (N k : Z) (s : sys) :
  bench_state N k s → 0 ≤ k < N → N ≤ uint64_max →
  ∃ s', run_actions [ALock k; AUnlock k] s = Some s' ∧
        bench_state N (k + 1) s'.
Proof.
  intros (Hm & Hn & Hc & Hl & Hp) Hk Hmax.
  assert (Hi : incr64 k = k + 1).
  { unfold incr64, wrap64, uint64_max in *. apply Z.mod_small. lia. }
  assert (Hadv : advanceAndWakeNext (mkOrderMutex N (k + 1) ∅ ∅)
                 = (mkOrderMutex N (k + 1) ∅ ∅, [])).
  { apply advanceAndWakeNext_settled. split; [set_solver|done]. }
  assert (Hstep1 : step (ALock k) s
            = Some (mkSys (mtx s) 0 (closed s) (<[k := Holding]> (phases s))
                          (lock_log s ++ [k]))).
  { unfold step, ID. rewrite Hp.
    destruct (decide (0 ≤ k < k)); [lia|]. destruct (decide (k ≤ k < N)); [|lia].
    unfold Lock_enter, ID. rewrite Hm. cbn [cur].
    destruct (decide (k = k)); [|done]. by rewrite Hn. }
  assert (Hstep2 : step (AUnlock k)
                     (mkSys (mtx s) 0 (closed s) (<[k := Holding]> (phases s))
                            (lock_log s ++ [k]))
            = Some (mkSys (mkOrderMutex N (k + 1) ∅ ∅) 0 (closed s ∪ list_to_set [])
                          (<[k := Released]> (<[k := Holding]> (phases s)))
                          (lock_log s ++ [k]))).
  { unfold step, ID. cbn [phases mtx nchan closed lock_log].
    rewrite lookup_insert_eq, Hm.
    unfold Unlock, ID, set_cur. cbn [cur next waiters burned].
    destruct (decide (k ≠ k)); [done|]. by rewrite Hi, Hadv. }
  cbn [run_actions]. rewrite Hstep1, Hstep2.
  eexists. split; [done|].
  split_and!; cbn [mtx nchan closed lock_log phases]; try done.
  - rewrite Hc. set_solver.
  - rewrite Hl, (seqZ_app 0 k 1) by lia. done.
  - intros j. rewrite insert_insert_eq, lookup_insert, Hp.
    repeat case_decide; try done; lia.
Qed.

Lemma bench_cycles (r : nat) (N k : Z) (s : sys) :
  bench_state N k s → 0 ≤ k → k + Z.of_nat r = N → N ≤ uint64_max →
  ∃ s', run_actions (seqZ k (Z.of_nat r) ≫= λ i, [ALock i; AUnlock i]) s
          = Some s' ∧ bench_state N N s'.
Proof.
  revert k s. induction r as [|r IH]; intros k s Hst H0 HN Hmax.
  - exists s. split; [done|]. by assert (k = N) as -> by lia.
  - rewrite seqZ_cons by lia.
    replace (Z.pred (Z.of_nat (S r))) with (Z.of_nat r) by lia.
    rewrite bind_cons, run_actions_app.
    destruct (bench_cycle N k s) as (s1 & -> & Hst1); [done|lia|done|].
    simpl. apply IH; [by replace (Z.succ k) with (k + 1) by lia|lia|lia|done].
Qed.

Lemma bench_return (N : Z) (l : list Z) (s : sys) :
  bench_state N N s → Forall (λ j, 0 ≤ j < N) l →
  ∃ s', run_actions (AReturnTicket <$> l) s = Some s' ∧ bench_state N N s'.
Proof.
  intros Hst Hl. revert s Hst. induction Hl as [|j l Hj _ IH]; intros s Hst.
  - by exists s.
  - destruct Hst as (Hm & Hn & Hc & Hlog & Hp).
    simpl. unfold step, ID. rewrite Hp. destruct (decide (0 ≤ j < N)); [|lia].
    rewrite ReturnTicket_behind by (rewrite Hm; unfold ID; simpl; lia).
    apply IH. split_and!; simpl; try done. rewrite Hc. set_solver.
Qed.

(** Sequential use never parks.  For every number [N] of tickets the
    counter can number, the run of the sequential benchmark goes through:
    every [Lock] returns on the fast path, so no channel is ever made or
    closed, no [Unlock] panics, the tickets are let in in the order
    [0 .. N-1], and at the end [cur = next = N] with both maps empty. *)
Theorem bench_sequential_fast_path (N : nat) (HN : Z.of_nat N ≤ uint64_max) :
  ∃ s, run_actions (bench_sequential N) sys_init = Some s ∧
       mtx s = mkOrderMutex (Z.of_nat N) (Z.of_nat N) ∅ ∅ ∧
       nchan s = 0%nat ∧ closed s = ∅ ∧
       lock_log s = seqZ 0 (Z.of_nat N) ∧
       complete s.
Proof.
  unfold bench_sequential. rewrite run_actions_app.
  destruct (bench_issue N 0 sys_init) as (s1 & -> & Hst1); [|done|lia|].
  { split_and!; try done. intros j. unfold sys_init. cbn [phases].
    rewrite lookup_empty. repeat case_decide; try done; lia. }
  rewrite Z.add_0_l in Hst1. cbn [mbind option_bind]. rewrite run_actions_app.
  destruct (bench_cycles N (Z.of_nat N) 0 s1) as (s2 & -> & Hst2);
    [done|done|lia|done|].
  cbn [mbind option_bind].
  destruct (bench_return (Z.of_nat N) (seqZ 0 (Z.of_nat N)) s2)
    as (s3 & -> & Hst3); [done|apply Forall_seqZ; lia|].
  exists s3. destruct Hst3 as (Hm & Hn & Hc & Hl & Hp).
  split_and!; try done.
  intros j f Hj. rewrite Hp in Hj. repeat case_decide; naive_solver lia.
Qed.

Lemma bench_sequential_fast_path_witness :
  ∃ s, run_actions (bench_sequential 3) sys_init = Some s ∧
       mtx s = mkOrderMutex 3 3 ∅ ∅ ∧
       nchan s = 0%nat ∧ closed s = ∅ ∧
       lock_log s = seqZ 0 3 ∧
       complete s.
Proof.
  apply (bench_sequential_fast_path 3). by vm_compute.
Defined.


(** * Further properties of the frontier *)

(** The loop of [advanceAndWakeNext] terminates.  Every iteration deletes a
    key of [burned], so after at most [len(burned)] iterations the loop
    reaches its [break], in every state and also when [cur] wraps: with any
    amount of fuel from [size b] on, the loop ends in the same state, and in
    that state [cur] is not burned. *)
Theorem skip_loop_terminates (fuel : nat) (c : Z) (b : gset Z)
    (Hfuel : (size b ≤ fuel)%nat) :
  skip_burned_loop fuel c b = skip_burned c b ∧
  ((skip_burned c b).1 ∉ (skip_burned c b).2) ∧
  ((skip_burned c b).2 ⊆ b) ∧
  ∃ k : nat, (k ≤ size b)%nat ∧ (skip_burned c b).1 = run_end c k ∧
             size (skip_burned c b).2 = (size b - k)%nat.
Proof.
  split; [by apply skip_burned_fuel|]. split; [apply skip_burned_stops|].
  destruct (skip_burned_loop_spec (size b) c b) as (k & Hk & Heq & Hall & Hnd & _);
    [done|].
  fold (skip_burned c b) in Heq. rewrite Heq. simpl.
  split; [set_solver|]. exists k. split_and!; [done|done|].
  rewrite size_difference.
  - rewrite size_list_to_set, run_length by done. done.
  - intros p Hp%elem_of_list_to_set. rewrite Forall_forall in Hall. by apply Hall.
Qed.

Lemma skip_loop_terminates_witness :
  skip_burned_loop 7 3 {[3; 4; 6]} = skip_burned 3 {[3; 4; 6]}.
Proof.
  apply (skip_loop_terminates 7 3 {[3; 4; 6]}). vm_compute. lia.
Defined.

(** Cancelling a ticket ahead of the frontier disturbs nobody.  In every
    state reachable by any calls, [ReturnTicket] of a ticket beyond [cur]
    marks it burned and drops its waiter entry, and that is all: [cur] and
    [next] stay, no other entry changes, and no channel is closed. *)
Theorem ReturnTicket_ahead (m : orderMutex) (t : ticket)
    (Hr : reachable m) (Hlt : cur m < ID t) :
  ReturnTicket m t =
    (mkOrderMutex (next m) (cur m) (delete (ID t) (waiters m))
                  ({[ID t]} ∪ burned m), []).
Proof.
  destruct (reachable_frontier m Hr) as [Hb Hw].
  rewrite ReturnTicket_unfold. destruct (decide (ID t < cur m)); [lia|].
  apply advanceAndWakeNext_settled. split; simpl.
  - intros [Heq%elem_of_singleton|?]%elem_of_union; [lia|done].
  - rewrite lookup_delete_ne by lia. done.
Qed.

Lemma ReturnTicket_ahead_witness :
  ReturnTicket (Lock_enter 0%nat (GetTickets 4 New).1 2).1 2
  = (mkOrderMutex 4 0 ∅ {[2]}, []).
Proof.
  etrans.
  - apply ReturnTicket_ahead.
    + apply reach_Lock, reachable_GetTickets, reach_New.
    + by vm_compute.
  - by vm_compute.
Defined.

(** [cur] is the first ticket that is not done.  In every state of an
    execution under the usage contract, every ticket before [cur] has been
    released or cancelled, and [cur] itself, if it has been handed out, has
    not: its owner has yet to call [Lock], is being woken, or holds the
    lock. *)
Theorem cur_first_unresolved (s : sys) (Hs : contract_reachable s) :
  (∀ q, 0 ≤ q < cur (mtx s) →
        phases s !! q = Some Released ∨ phases s !! q = Some Cancelled) ∧
  (cur (mtx s) < next (mtx s) →
     phases s !! cur (mtx s) = Some Issued ∨
     (∃ ch, phases s !! cur (mtx s) = Some (Waiting ch) ∧ ch ∈ closed s) ∨
     phases s !! cur (mtx s) = Some Holding) ∧
  (cur (mtx s) = next (mtx s) → complete s).
Proof.
  apply contract_reachable_inv in Hs. pose proof Hs as (Hm & [Hfb Hfw] & _).
  pose proof (mi_range _ _ _ _ Hm) as Hr.
  split_and!.
  - intros q Hq.
    assert (is_Some (phases s !! q)) as [f Hf] by (apply (mi_dom _ _ _ _ Hm); lia).
    rewrite Hf. destruct (sys_inv_behind _ _ _ Hs Hf) as [-> | ->]; [lia|eauto..].
  - intros Hlt.
    assert (is_Some (phases s !! cur (mtx s))) as [f Hf]
      by (apply (mi_dom _ _ _ _ Hm); lia).
    pose proof (mi_phase _ _ _ _ Hm _ _ Hf) as Hok. rewrite Hf.
    destruct f as [|ch| | |]; simpl in Hok.
    + by left.
    + right; left. exists ch. split; [done|].
      destruct (sys_inv_Waiting _ _ _ Hs Hf) as [(_ & ? & _)|(? & _)]; [done|lia].
    + by right; right.
    + lia.
    + destruct Hok as [?|(_ & ? & _)]; [lia|done].
  - intros Heq p f Hp.
    assert (0 ≤ p < next (mtx s)) by (apply (mi_dom _ _ _ _ Hm); eauto).
    apply (sys_inv_behind _ _ _ Hs Hp). lia.
Qed.

Lemma cur_first_unresolved_witness :
  complete (exec demo_trace).
Proof.
  apply (cur_first_unresolved (exec demo_trace)).
  - exists demo_trace. by vm_compute.
  - by vm_compute.
Defined.
